(** * mackerel-plugin-postgres: a shallow embedding of [lib/postgres.go]

    The development follows the Go source function by function.

    - Go strings are byte sequences; they are modelled by [string]
      (a list of 8-bit [ascii]).  Both regular expressions of the plugin
      only distinguish ASCII bytes from each other, and every byte of a
      multi-byte rune is >= 0x80, so matching byte-wise and matching
      rune-wise select the same substrings.
    - [uint64] and [uint] are modelled by [Z] with the wrap-around written
      out ([wrap64]); [float64] is the kernel's binary64 [float].
    - [map[string]interface{}] is a [gmap string value].
    - A Go result pair [(m, err)] is a pair of options: [None] is [nil].
    - A function that talks to the server runs in the writer monad [IO],
      which records the connection events in the order they happen.
    - [logger] calls do not influence any returned value and are left out. *)

From Stdlib Require Import ZArith String Ascii List Lia Bool.
From Corelib Require Import PrimFloat.
From stdpp Require Import base option list gmap fin_maps strings pretty.

Open Scope string_scope.
Open Scope Z_scope.

(* ===================================================================== *)
(** * Part I: the embedding                                              *)
(* ===================================================================== *)

(** ** Go values *)

(** The dynamic values stored in the metric maps: the plugin only ever
    stores [uint64] and [float64]. *)
Inductive value : Type :=
| Uint64 (n : Z)
| Float64 (f : float).

(** [strconv.ErrSyntax], [strconv.ErrRange], and the error for a bit
    size outside 0..64. *)
Inductive numErr : Type := ErrSyntax | ErrRange | ErrBitSize (bitSize : Z).

(** Go [error] values seen by the plugin. *)
Inductive error : Type :=
| NumError (func num : string) (err : numErr)   (* *strconv.NumError *)
| ErrorString (msg : string)                    (* errors.New *)
| DriverError (msg : string).                   (* from database/sql *)

Definition wrap64 (z : Z) : Z := z mod 2 ^ 64.

(** [a + b] on [uint64]. *)
Definition add64 (a b : Z) : Z := wrap64 (a + b).

Definition maxUint64 : Z := 2 ^ 64 - 1.

(** ** Bytes and character classes *)

Definition byte_between (lo hi c : ascii) : bool :=
  ((N_of_ascii lo <=? N_of_ascii c) && (N_of_ascii c <=? N_of_ascii hi))%N.

(** [\d] (Go's [\d] is ASCII-only). *)
Definition is_digit (c : ascii) : bool := byte_between "0" "9" c.

(** The set inside [[^a-zA-Z0-9_-]]. *)
Definition is_key_byte (c : ascii) : bool :=
  byte_between "a" "z" c || byte_between "A" "Z" c || byte_between "0" "9" c
  || Ascii.eqb c "_" || Ascii.eqb c "-".

(** ** The fragment of package [regexp] used by the plugin

    Go's [regexp] returns the leftmost match and, among those, the one a
    backtracking search finds first.  [exec] is that backtracking search,
    in continuation-passing style; capture groups are recorded as
    [(start, end)] byte offsets, as in Go. *)

Inductive regexp : Type :=
| Empty
| Lit (c : ascii)
| Class (p : ascii -> bool)
| Cat (r1 r2 : regexp)
| Plus (r : regexp)               (* r+, greedy *)
| Quest (r : regexp)              (* r?, greedy *)
| Group (i : nat) (r : regexp).   (* the i-th parenthesis *)

Fixpoint LitString (s : string) : regexp :=
  match s with
  | EmptyString => Empty
  | String c s' => Cat (Lit c) (LitString s')
  end.

Fixpoint NumSubexp (r : regexp) : nat :=
  match r with
  | Empty | Lit _ | Class _ => 0%nat
  | Cat r1 r2 => Nat.max (NumSubexp r1) (NumSubexp r2)
  | Plus r1 | Quest r1 => NumSubexp r1
  | Group i r1 => Nat.max i (NumSubexp r1)
  end.

Definition captures : Type := list (option (nat * nat)).

Definition orElse {A} (x y : option A) : option A :=
  match x with Some _ => x | None => y end.

Definition cont : Type := string -> nat -> captures -> option captures.

Section PlusLoop.
Variable body : string -> nat -> captures -> cont -> option captures.
Variable k : cont.

(** [r+]: one more [r] is preferred to stopping (greedy); an iteration
    has to consume input to be repeated.  [fuel] bounds the number of
    iterations by the length of the unread input. *)
Fixpoint plusLoop (fuel : nat) (s : string) (pos : nat) (caps : captures)
    : option captures :=
  match fuel with
  | O => None
  | S fuel' =>
      body s pos caps (fun s' pos' caps' =>
        orElse (if (pos <? pos')%nat then plusLoop fuel' s' pos' caps' else None)
               (k s' pos' caps'))
  end.

End PlusLoop.

(** [exec r s pos caps k]: match [r] against the input whose unread part
    is [s] (at offset [pos]), then continue with [k]; alternatives are
    tried in priority order and the first success wins. *)
Fixpoint exec (r : regexp) (s : string) (pos : nat) (caps : captures) (k : cont)
    {struct r} : option captures :=
  match r with
  | Empty => k s pos caps
  | Lit c =>
      match s with
      | String c' s' => if Ascii.eqb c c' then k s' (S pos) caps else None
      | EmptyString => None
      end
  | Class p =>
      match s with
      | String c' s' => if p c' then k s' (S pos) caps else None
      | EmptyString => None
      end
  | Cat r1 r2 => exec r1 s pos caps (fun s' pos' caps' => exec r2 s' pos' caps' k)
  | Plus r1 => plusLoop (exec r1) k (S (String.length s)) s pos caps
  | Quest r1 => orElse (exec r1 s pos caps k) (k s pos caps)
  | Group i r1 =>
      exec r1 s pos caps (fun s' pos' caps' => k s' pos' (<[i := Some (pos, pos')]> caps'))
  end.

(** One attempt at offset [pos]: the whole match is group 0. *)
Definition matchAt (re : regexp) (s : string) (pos : nat) : option captures :=
  exec re s pos (replicate (S (NumSubexp re)) None)
       (fun _ pos' caps => Some (<[0%nat := Some (pos, pos')]> caps)).

(** Leftmost match: try every start offset in turn. *)
Fixpoint findFrom (re : regexp) (s : string) (pos : nat) : option captures :=
  match matchAt re s pos with
  | Some caps => Some caps
  | None =>
      match s with
      | EmptyString => None
      | String _ s' => findFrom re s' (S pos)
      end
  end.

Definition slice (s : string) (g : option (nat * nat)) : string :=
  match g with
  | Some (a, b) => substring a (b - a) s
  | None => ""
  end.

(** [re.FindStringSubmatch(s)]: [nil] (here [[]]) when there is no match,
    otherwise [1 + NumSubexp] strings, a group that took no part in the
    match being the empty string. *)
Definition FindStringSubmatch (re : regexp) (s : string) : list string :=
  match findFrom re s 0 with
  | None => []
  | Some caps => map (slice s) caps
  end.

(** Length of the match of [re] that starts at the head of [s]. *)
Definition matchLen (re : regexp) (s : string) : option nat :=
  match matchAt re s 0 with
  | Some (Some (_, e) :: _) => Some e
  | _ => None
  end.

(** [re.ReplaceAllString(src, repl)] for a pattern that matches no empty
    string and a replacement without [$]: successive leftmost matches are
    replaced, the text between them is copied.  [skip] counts the bytes of
    the current match still to be dropped. *)
Fixpoint replaceAll (re : regexp) (repl : string) (skip : nat) (src : string) : string :=
  match src with
  | EmptyString => EmptyString
  | String c src' =>
      match skip with
      | S n => replaceAll re repl n src'
      | O =>
          match matchLen re src with
          | Some (S n) => repl ++ replaceAll re repl n src'
          | _ => String c (replaceAll re repl 0 src')
          end
      end
  end.

Definition ReplaceAllString (re : regexp) (src repl : string) : string :=
  replaceAll re repl 0 src.

(** ** Package [strings] *)

Fixpoint contains_byte (cutset : string) (c : ascii) : bool :=
  match cutset with
  | EmptyString => false
  | String d cutset' => Ascii.eqb c d || contains_byte cutset' c
  end.

(** [strings.TrimRight(s, cutset)] for an ASCII cutset. *)
Fixpoint TrimRight (s cutset : string) : string :=
  match s with
  | EmptyString => EmptyString
  | String c s' =>
      match TrimRight s' cutset with
      | EmptyString => if contains_byte cutset c then EmptyString else String c EmptyString
      | t => String c t
      end
  end.

(** ** The server and the connection *)

(** What one [rows.Next(); rows.Scan(...)] step yields: the decoded row
    or the scan error. *)
Inductive scan (T : Type) : Type :=
| Scanned (x : T)
| ScanFailed (e : error).
Arguments Scanned {T} x.
Arguments ScanFailed {T} e.

(** What [db.Query] yields: the rows, or the query error. *)
Inductive queryResult (T : Type) : Type :=
| QueryOk (rows : list (scan T))
| QueryErr (e : error).
Arguments QueryOk {T} rows.
Arguments QueryErr {T} e.

(** The columns of one [pg_stat_database] row as [StructScan] decodes
    them: a nullable column, or one the server version does not have, is
    [None]. *)
Record pgStatRow : Type := {
  col_xact_commit : Z;
  col_xact_rollback : Z;
  col_blks_read : Z;
  col_blks_hit : Z;
  col_blk_read_time : option float;
  col_blk_write_time : option float;
  col_tup_returned : Z;
  col_tup_fetched : Z;
  col_tup_inserted : Z;
  col_tup_updated : Z;
  col_tup_deleted : Z;
  col_deadlocks : option Z;
  col_temp_bytes : option Z
}.

(** An open [*sqlx.DB]: the server's answer to each query text, read at
    the row type the caller scans into. *)
Record DB : Type := {
  query_version : string -> queryResult string;
  query_stat_database : string -> queryResult pgStatRow;
  query_stat_activity : string -> queryResult (float * string * bool);
  query_database_size : string -> queryResult float
}.

(** [sqlx.Connect(driverName, dataSourceName)]. *)
Record World : Type := {
  sqlx_Connect : string -> string -> DB + error
}.

Inductive event : Type :=
| EvConnect (driver dsn : string)
| EvQuery (sql : string)
| EvClose.

(** The writer monad of connection events. *)
Definition IO (A : Type) : Type := A * list event.

Definition io_ret {A} (a : A) : IO A := (a, []).

Definition io_bind {A B} (m : IO A) (f : A -> IO B) : IO B :=
  let '(a, tr1) := m in
  let '(b, tr2) := f a in
  (b, (tr1 ++ tr2)%list).

Notation "x <- m ;; k" := (io_bind m (fun x => k))
  (at level 100, m at next level, right associativity).

Definition Connect (w : World) (driver dsn : string) : IO (DB + error) :=
  (sqlx_Connect w driver dsn, [EvConnect driver dsn]).

Definition Query {T} (answer : string -> queryResult T) (sql : string) : IO (queryResult T) :=
  (answer sql, [EvQuery sql]).

Definition Close : IO unit := (tt, [EvClose]).

(** [defer cleanup] followed by [body]: [cleanup] runs when [body]
    returns, whichever [return] statement is taken. *)
Definition defer {A} (cleanup : IO unit) (body : IO A) : IO A :=
  a <- body ;; _ <- cleanup ;; io_ret a.

Definition result_of {A} (m : IO A) : A := fst m.
Definition trace_of {A} (m : IO A) : list event := snd m.

(** [map[string]interface{}] *)
Abbreviation metricMap := (gmap string value).

(** ** [fetchStatDatabase] *)

(** The cells behind pointer fields.  A pointer is the index of its
    cell in the list of cells of its type; allocation appends a cell. *)
Definition loc : Type := nat.

Section Cells.
Context {A : Type}.

(** [new(T)] initialised with [v]. *)
Definition new_cell (cells : list A) (v : A) : loc * list A :=
  (length cells, (cells ++ [v])%list).

(** [*l].  Go pointers never dangle: the default [d] is not reachable. *)
Definition load (d : A) (cells : list A) (l : loc) : A := default d (cells !! l).

(** [*l = v] *)
Definition store (cells : list A) (l : loc) (v : A) : list A := <[l := v]> cells.

(** Scanning a column into a pointer field of a fresh struct: [nil] for
    a null column, otherwise a cell of its own. *)
Definition scan_ptr (cells : list A) (col : option A) : option loc * list A :=
  match col with
  | None => (None, cells)
  | Some v => let '(l, cells') := new_cell cells v in (Some l, cells')
  end.

(** [if p.X != nil { if totalStat.X == nil { totalStat.X = p.X }
    else { *totalStat.X += *p.X } }] *)
Definition add_ptr (add : A -> A -> A) (d : A) (cells : list A)
    (total p : option loc) : option loc * list A :=
  match p with
  | None => (total, cells)
  | Some lp =>
      match total with
      | None => (Some lp, cells)
      | Some lt => (Some lt, store cells lt (add (load d cells lt) (load d cells lp)))
      end
  end.

End Cells.

(** The heap: the [float64] cells and the [uint64] cells. *)
Record heap : Type := {
  float_cells : list float;
  uint_cells : list Z
}.

Definition empty_heap : heap := {| float_cells := []; uint_cells := [] |}.

Definition load_float (h : heap) (l : loc) : float := load 0%float (float_cells h) l.
Definition load_uint (h : heap) (l : loc) : Z := load 0 (uint_cells h) l.

Record pgStat : Type := {
  XactCommit : Z;
  XactRollback : Z;
  BlksRead : Z;
  BlksHit : Z;
  BlkReadTime : option loc;
  BlkWriteTime : option loc;
  TupReturned : Z;
  TupFetched : Z;
  TupInserted : Z;
  TupUpdated : Z;
  TupDeleted : Z;
  Deadlocks : option loc;
  TempBytes : option loc
}.

(** [pgStat{}] *)
Definition pgStat_zero : pgStat :=
  {| XactCommit := 0; XactRollback := 0; BlksRead := 0; BlksHit := 0;
     BlkReadTime := None; BlkWriteTime := None;
     TupReturned := 0; TupFetched := 0; TupInserted := 0; TupUpdated := 0;
     TupDeleted := 0; Deadlocks := None; TempBytes := None |}.

(** A successful [rows.StructScan(&p)] into a fresh [p := pgStat{}]. *)
Definition StructScan (h : heap) (row : pgStatRow) : pgStat * heap :=
  let '(brt, fc) := scan_ptr (float_cells h) (col_blk_read_time row) in
  let '(bwt, fc) := scan_ptr fc (col_blk_write_time row) in
  let '(dl, uc) := scan_ptr (uint_cells h) (col_deadlocks row) in
  let '(tb, uc) := scan_ptr uc (col_temp_bytes row) in
  ({| XactCommit := col_xact_commit row;
      XactRollback := col_xact_rollback row;
      BlksRead := col_blks_read row;
      BlksHit := col_blks_hit row;
      BlkReadTime := brt;
      BlkWriteTime := bwt;
      TupReturned := col_tup_returned row;
      TupFetched := col_tup_fetched row;
      TupInserted := col_tup_inserted row;
      TupUpdated := col_tup_updated row;
      TupDeleted := col_tup_deleted row;
      Deadlocks := dl;
      TempBytes := tb |},
   {| float_cells := fc; uint_cells := uc |}).

(** The body of the row loop after a successful scan. *)
Definition accumulate (h : heap) (totalStat p : pgStat) : pgStat * heap :=
  let '(brt, fc) :=
    add_ptr PrimFloat.add 0%float (float_cells h) (BlkReadTime totalStat) (BlkReadTime p) in
  let '(bwt, fc) :=
    add_ptr PrimFloat.add 0%float fc (BlkWriteTime totalStat) (BlkWriteTime p) in
  let '(dl, uc) := add_ptr add64 0 (uint_cells h) (Deadlocks totalStat) (Deadlocks p) in
  let '(tb, uc) := add_ptr add64 0 uc (TempBytes totalStat) (TempBytes p) in
  ({| XactCommit := add64 (XactCommit totalStat) (XactCommit p);
      XactRollback := add64 (XactRollback totalStat) (XactRollback p);
      BlksRead := add64 (BlksRead totalStat) (BlksRead p);
      BlksHit := add64 (BlksHit totalStat) (BlksHit p);
      BlkReadTime := brt;
      BlkWriteTime := bwt;
      TupReturned := add64 (TupReturned totalStat) (TupReturned p);
      TupFetched := add64 (TupFetched totalStat) (TupFetched p);
      TupInserted := add64 (TupInserted totalStat) (TupInserted p);
      TupUpdated := add64 (TupUpdated totalStat) (TupUpdated p);
      TupDeleted := add64 (TupDeleted totalStat) (TupDeleted p);
      Deadlocks := dl;
      TempBytes := tb |},
   {| float_cells := fc; uint_cells := uc |}).

(** One iteration of [for rows.Next()]: a failed scan is skipped. *)
Definition statRowStep (acc : pgStat * heap) (row : scan pgStatRow) : pgStat * heap :=
  match row with
  | ScanFailed _ => acc
  | Scanned cols =>
      let '(totalStat, h) := acc in
      let '(p, h) := StructScan h cols in
      accumulate h totalStat p
  end.

Definition statRowLoop (rows : list (scan pgStatRow)) : pgStat * heap :=
  fold_left statRowStep rows (pgStat_zero, empty_heap).

Definition set_float_if_present (key : string) (h : heap) (p : option loc) (m : metricMap) : metricMap :=
  match p with
  | Some l => <[key := Float64 (load_float h l)]> m
  | None => m
  end.

Definition set_uint_if_present (key : string) (h : heap) (p : option loc) (m : metricMap) : metricMap :=
  match p with
  | Some l => <[key := Uint64 (load_uint h l)]> m
  | None => m
  end.

Definition statOfTotal (totalStat : pgStat) (h : heap) : metricMap :=
  let m : metricMap := ∅ in
  let m := <["xact_commit" := Uint64 (XactCommit totalStat)]> m in
  let m := <["xact_rollback" := Uint64 (XactRollback totalStat)]> m in
  let m := <["blks_read" := Uint64 (BlksRead totalStat)]> m in
  let m := <["blks_hit" := Uint64 (BlksHit totalStat)]> m in
  let m := set_float_if_present "blk_read_time" h (BlkReadTime totalStat) m in
  let m := set_float_if_present "blk_write_time" h (BlkWriteTime totalStat) m in
  let m := <["tup_returned" := Uint64 (TupReturned totalStat)]> m in
  let m := <["tup_fetched" := Uint64 (TupFetched totalStat)]> m in
  let m := <["tup_inserted" := Uint64 (TupInserted totalStat)]> m in
  let m := <["tup_updated" := Uint64 (TupUpdated totalStat)]> m in
  let m := <["tup_deleted" := Uint64 (TupDeleted totalStat)]> m in
  let m := set_uint_if_present "deadlocks" h (Deadlocks totalStat) m in
  let m := set_uint_if_present "temp_bytes" h (TempBytes totalStat) m in
  m.

Definition query_stat : string := "SELECT * FROM pg_stat_database".

(** [db.Unsafe()] only lets [StructScan] ignore columns that have no
    field in [pgStat]; what a scan yields is part of the [DB]. *)
Definition fetchStatDatabase (db : DB) : IO (option metricMap * option error) :=
  r <- Query (query_stat_database db) query_stat ;;
  match r with
  | QueryErr err => io_ret (None, Some err)
  | QueryOk rows =>
      let '(totalStat, h) := statRowLoop rows in
      io_ret (Some (statOfTotal totalStat h), None)
  end.

(** ** [fetchConnections] *)

Record version : Type := { first : Z; second : Z; thrird : Z }.

Definition query_modern : string :=
  "select count(*), state, wait_event is not null from pg_stat_activity group by state, wait_event is not null".

Definition query_legacy : string :=
  "select count(*), state, waiting from pg_stat_activity group by state, waiting".

(** The [if] that opens [fetchConnections]. *)
Definition connectionsQuery (v : version) : string :=
  if (9 <? first v) || ((first v =? 9) && (6 <=? second v))
  then query_modern
  else query_legacy.

(** [regexp.MustCompile("[^a-zA-Z0-9_-]+")] *)
Definition normalizeRe : regexp := Plus (Class (fun c => negb (is_key_byte c))).

(** The three statements that turn a row's state label into a key. *)
Definition normalizeState (state : string) (waiting : bool) : string :=
  let state := ReplaceAllString normalizeRe state "_" in
  let state := TrimRight state "_" in
  if waiting then state ++ "_waiting" else state.

Definition connectionsSeed : metricMap :=
  <["idle_in_transaction_aborted" := Float64 0%float]>
  (<["idle_in_transaction" := Float64 0%float]>
  (<["idle" := Float64 0%float]>
  (<["active_waiting" := Float64 0%float]>
  (<["active" := Float64 0%float]> ∅)))).

(** One iteration of [for rows.Next()]: a failed scan is skipped. *)
Definition connRowStep (m : metricMap) (row : scan (float * string * bool)) : metricMap :=
  match row with
  | ScanFailed _ => m
  | Scanned (count, state, waiting) =>
      <[normalizeState state waiting := Float64 count]> m
  end.

Definition fetchConnections (db : DB) (v : version) : IO (option metricMap * option error) :=
  let query := connectionsQuery v in
  r <- Query (query_stat_activity db) query ;;
  match r with
  | QueryErr err => io_ret (None, Some err)
  | QueryOk rows => io_ret (Some (fold_left connRowStep rows connectionsSeed), None)
  end.

(** ** [fetchDatabaseSize] *)

Definition sizeRowStep (totalSize : float) (row : scan float) : float :=
  match row with
  | ScanFailed _ => totalSize
  | Scanned dbsize => (totalSize + dbsize)%float
  end.

Definition query_size : string :=
  "select sum(pg_database_size(datname)) as dbsize from pg_database where has_database_privilege(datname, 'connect')".

Definition fetchDatabaseSize (db : DB) : IO (option metricMap * option error) :=
  r <- Query (query_database_size db) query_size ;;
  match r with
  | QueryErr err => io_ret (None, Some err)
  | QueryOk rows =>
      io_ret (Some (<["total_size" := Float64 (fold_left sizeRowStep rows 0%float)]> ∅), None)
  end.

(** ** Package [strconv]

    [strconv.ParseUint], transcribed from the Go library for base 10,
    the only base the plugin passes: any byte other than a decimal digit
    is a syntax error, and the value is accumulated in a [uint64] with
    the library's two overflow tests. *)

Definition syntaxError (fn str : string) : error := NumError fn str ErrSyntax.
Definition rangeError (fn str : string) : error := NumError fn str ErrRange.

Definition cutoff : Z := maxUint64 / 10 + 1.

Fixpoint parseDigits (s0 : string) (maxVal : Z) (n : Z) (s : string) : Z * option error :=
  match s with
  | EmptyString => (n, None)
  | String c s' =>
      if is_digit c then
        let d := Z.of_N (N_of_ascii c) - 48 in
        if cutoff <=? n then (maxVal, Some (rangeError "ParseUint" s0))
        else
          let n := wrap64 (n * 10) in
          let n1 := wrap64 (n + d) in
          if (n1 <? n) || (maxVal <? n1) then (maxVal, Some (rangeError "ParseUint" s0))
          else parseDigits s0 maxVal n1 s'
      else (0, Some (syntaxError "ParseUint" s0))
  end.

Section Plugin.

(** [strconv.IntSize], the width of [int] and [uint] on the target
    platform (32 or 64); the source does not fix it. *)
Variable IntSize : Z.

(** [strings.Title], from the Go standard library (it needs the Unicode
    tables; it only feeds the graph labels). *)
Variable Title : string -> string.

(** [uint64(1)<<uint(bitSize) - 1] *)
Definition maxValOf (bitSize : Z) : Z := wrap64 (wrap64 (2 ^ bitSize) - 1).

(** [strconv.ParseUint(s, 10, bitSize)] *)
Definition ParseUint (s : string) (bitSize : Z) : Z * option error :=
  if String.eqb s "" then (0, Some (syntaxError "ParseUint" s))
  else if bitSize =? 0 then parseDigits s (maxValOf IntSize) 0 s
  else if (bitSize <? 0) || (64 <? bitSize)
       then (0, Some (NumError "ParseUint" s (ErrBitSize bitSize)))
       else parseDigits s (maxValOf bitSize) 0 s.

(** The conversion [uint(x)] of a [uint64]. *)
Definition to_uint (x : Z) : Z := x mod 2 ^ IntSize.

(** ** [fetchVersion] *)

Definition digit : regexp := Class is_digit.

(** [regexp.MustCompile("PostgreSQL (\\d+)\\.(\\d+)(\\.(\\d+))? ")] *)
Definition versionRe : regexp :=
  Cat (LitString "PostgreSQL ")
 (Cat (Group 1 (Plus digit))
 (Cat (Lit ".")
 (Cat (Group 2 (Plus digit))
 (Cat (Quest (Group 3 (Cat (Lit ".") (Group 4 (Plus digit)))))
      (Lit " "))))).

(** [submatch[i]]; every use is guarded by a test on [len(submatch)]. *)
Definition subscript (l : list string) (i : nat) : string := nth i l "".

Definition version_zero : version := {| first := 0; second := 0; thrird := 0 |}.

(** The body of the row loop once [versionStr] matched with
    [len(submatch) >= 4]. *)
Definition parseSubmatch (submatch : list string) : version * option error :=
  let res := version_zero in
  let '(first, err) := ParseUint (subscript submatch 1) 0 in
  match err with
  | Some _ => (res, err)
  | None =>
      let '(second, err) := ParseUint (subscript submatch 2) 0 in
      match err with
      | Some _ => (res, err)
      | None =>
          let '(third, err) :=
            if (length submatch =? 5)%nat
            then ParseUint (subscript submatch 4) 0
            else (0, err) in
          match err with
          | Some _ => (res, err)
          | None =>
              ({| first := to_uint first; second := to_uint second;
                  thrird := to_uint third |}, err)
          end
      end
  end.

(** [for rows.Next() { ... }] and the [return] after it. *)
Fixpoint versionRowLoop (rows : list (scan string)) : version * option error :=
  match rows with
  | [] => (version_zero, Some (ErrorString "failed to select version()"))
  | ScanFailed err :: _ => (version_zero, Some err)
  | Scanned versionStr :: rows' =>
      let submatch := FindStringSubmatch versionRe versionStr in
      if (4 <=? length submatch)%nat
      then parseSubmatch submatch
      else versionRowLoop rows'
  end.

Definition fetchVersion (db : DB) : IO (version * option error) :=
  r <- Query (query_version db) "select version()" ;;
  match r with
  | QueryErr err => io_ret (version_zero, Some err)
  | QueryOk rows => io_ret (versionRowLoop rows)
  end.

(** ** [mergeStat] and [FetchMetrics] *)

(** [for k, v := range src { dst[k] = v }] with the entries visited in
    the order [entries]. *)
Definition mergeEntries (dst : metricMap) (entries : list (string * value)) : metricMap :=
  fold_left (fun dst kv => <[kv.1 := kv.2]> dst) entries dst.

(** [mergeStat(dst, src)]; the result is [dst] after the call.  Go visits
    the entries in an unspecified order, here the order of [map_to_list]. *)
Definition mergeStat (dst src : metricMap) : metricMap := mergeEntries dst (map_to_list src).

Record PostgresPlugin : Type := {
  Host : string;
  Port : string;
  Username : string;
  Password : string;
  SSLmode : string;
  Prefix : string;
  Timeout : Z;
  Tempfile : string;
  Option : string
}.

Definition MetricKeyPrefix (p : PostgresPlugin) : string :=
  if String.eqb (Prefix p) "" then "postgres" else Prefix p.

(** [fmt.Sprintf("user=%s password=%s host=%s port=%s sslmode=%s
    connect_timeout=%d %s", ...)] *)
Definition dataSourceName (p : PostgresPlugin) : string :=
  "user=" ++ Username p ++ " password=" ++ Password p ++ " host=" ++ Host p
  ++ " port=" ++ Port p ++ " sslmode=" ++ SSLmode p
  ++ " connect_timeout=" ++ pretty (Timeout p) ++ " " ++ Option p.

(** A [nil] map ranges over nothing. *)
Definition entries_of (m : option metricMap) : metricMap := default ∅ m.

Definition FetchMetrics (w : World) (p : PostgresPlugin) : IO (option metricMap * option error) :=
  c <- Connect w "postgres" (dataSourceName p) ;;
  match c with
  | inr err => io_ret (None, Some err)
  | inl db =>
      defer Close (
        r <- fetchVersion db ;;
        let '(version, err) := r in
        match err with
        | Some _ => io_ret (None, err)
        | None =>
        r <- fetchStatDatabase db ;;
        let '(statStatDatabase, err) := r in
        match err with
        | Some _ => io_ret (None, err)
        | None =>
        r <- fetchConnections db version ;;
        let '(statConnections, err) := r in
        match err with
        | Some _ => io_ret (None, err)
        | None =>
        r <- fetchDatabaseSize db ;;
        let '(statDatabaseSize, err) := r in
        match err with
        | Some _ => io_ret (None, err)
        | None =>
            let stat : metricMap := ∅ in
            let stat := mergeStat stat (entries_of statStatDatabase) in
            let stat := mergeStat stat (entries_of statConnections) in
            let stat := mergeStat stat (entries_of statDatabaseSize) in
            io_ret (Some stat, err)
        end end end end)
  end.

(** ** [GraphDefinition] *)

Record Metrics : Type := {
  Name : string;
  Label : string;
  Diff : bool;
  Stacked : bool
}.

Record Graphs : Type := {
  GLabel : string;     (* [Label] *)
  Unit : string;
  GMetrics : list Metrics   (* [Metrics] *)
}.

Definition GraphDefinition (p : PostgresPlugin) : gmap string Graphs :=
  let labelPrefix := Title (MetricKeyPrefix p) in
  list_to_map [
    ("connections",
     {| GLabel := labelPrefix ++ " Connections";
        Unit := "integer";
        GMetrics := [
          {| Name := "active"; Label := "Active"; Diff := false; Stacked := true |};
          {| Name := "active_waiting"; Label := "Active waiting"; Diff := false; Stacked := true |};
          {| Name := "idle"; Label := "Idle"; Diff := false; Stacked := true |};
          {| Name := "idle_in_transaction"; Label := "Idle in transaction"; Diff := false; Stacked := true |};
          {| Name := "idle_in_transaction_aborted_"; Label := "Idle in transaction (aborted)"; Diff := false; Stacked := true |};
          {| Name := "fastpath_function_call"; Label := "fast-path function call"; Diff := false; Stacked := true |};
          {| Name := "disabled"; Label := "Disabled"; Diff := false; Stacked := true |} ] |});
    ("commits",
     {| GLabel := labelPrefix ++ " Commits";
        Unit := "integer";
        GMetrics := [
          {| Name := "xact_commit"; Label := "Xact Commit"; Diff := true; Stacked := false |};
          {| Name := "xact_rollback"; Label := "Xact Rollback"; Diff := true; Stacked := false |} ] |});
    ("blocks",
     {| GLabel := labelPrefix ++ " Blocks";
        Unit := "integer";
        GMetrics := [
          {| Name := "blks_read"; Label := "Blocks Read"; Diff := true; Stacked := false |};
          {| Name := "blks_hit"; Label := "Blocks Hit"; Diff := true; Stacked := false |} ] |});
    ("rows",
     {| GLabel := labelPrefix ++ " Rows";
        Unit := "integer";
        GMetrics := [
          {| Name := "tup_returned"; Label := "Returned Rows"; Diff := true; Stacked := false |};
          {| Name := "tup_fetched"; Label := "Fetched Rows"; Diff := true; Stacked := true |};
          {| Name := "tup_inserted"; Label := "Inserted Rows"; Diff := true; Stacked := true |};
          {| Name := "tup_updated"; Label := "Updated Rows"; Diff := true; Stacked := true |};
          {| Name := "tup_deleted"; Label := "Deleted Rows"; Diff := true; Stacked := true |} ] |});
    ("size",
     {| GLabel := labelPrefix ++ " Data Size";
        Unit := "integer";
        GMetrics := [
          {| Name := "total_size"; Label := "Total Size"; Diff := false; Stacked := false |} ] |});
    ("deadlocks",
     {| GLabel := labelPrefix ++ " Dead Locks";
        Unit := "integer";
        GMetrics := [
          {| Name := "deadlocks"; Label := "Deadlocks"; Diff := true; Stacked := false |} ] |});
    ("iotime",
     {| GLabel := labelPrefix ++ " Block I/O time";
        Unit := "float";
        GMetrics := [
          {| Name := "blk_read_time"; Label := "Block Read Time (ms)"; Diff := true; Stacked := false |};
          {| Name := "blk_write_time"; Label := "Block Write Time (ms)"; Diff := true; Stacked := false |} ] |});
    ("tempfile",
     {| GLabel := labelPrefix ++ " Temporary file";
        Unit := "integer";
        GMetrics := [
          {| Name := "temp_bytes"; Label := "Temporary file size (byte)"; Diff := true; Stacked := false |} ] |})
  ].

End Plugin.

(** ** Reference definitions

    These follow the wording of the specification, not the code; the
    theorems of Part II compare the code with them. *)

(** "Replace every run of characters outside [A-Za-z0-9_-] with a single
    underscore": [in_run] tells whether the previous byte belonged to
    such a run. *)
Fixpoint spec_collapse (in_run : bool) (s : string) : string :=
  match s with
  | EmptyString => EmptyString
  | String c s' =>
      if is_key_byte c then String c (spec_collapse false s')
      else if in_run then spec_collapse true s'
      else String "_" (spec_collapse true s')
  end.

(** [n] underscores. *)
Fixpoint underscores (n : nat) : string :=
  match n with
  | O => EmptyString
  | S n' => String "_" (underscores n')
  end.

Definition ends_with_underscore (s : string) : Prop := exists t, s = t ++ "_".

(** The five keys the connection-state aggregator always reports. *)
Definition seededKeys : list string :=
  ["active"; "active_waiting"; "idle"; "idle_in_transaction";
   "idle_in_transaction_aborted"].

(** The rows of a result set whose scan succeeds, in order. *)
Fixpoint scanned {T} (rows : list (scan T)) : list T :=
  match rows with
  | [] => []
  | Scanned x :: rows' => x :: scanned rows'
  | ScanFailed _ :: rows' => scanned rows'
  end.

(** The same result set with the rows whose scan fails removed. *)
Definition without_failed {T} (rows : list (scan T)) : list (scan T) :=
  map Scanned (scanned rows).

Definition without_failed_result {T} (q : queryResult T) : queryResult T :=
  match q with
  | QueryOk rows => QueryOk (without_failed rows)
  | QueryErr err => QueryErr err
  end.

(** The same server, except that the rows that fail to scan are not in
    its result sets. *)
Definition skip_failed_rows (db : DB) : DB :=
  {| query_version := query_version db;
     query_stat_database := fun sql => without_failed_result (query_stat_database db sql);
     query_stat_activity := fun sql => without_failed_result (query_stat_activity db sql);
     query_database_size := fun sql => without_failed_result (query_database_size db sql) |}.

Definition skip_failed_rows_everywhere (w : World) : World :=
  {| sqlx_Connect := fun driver dsn =>
       match sqlx_Connect w driver dsn with
       | inl db => inl (skip_failed_rows db)
       | inr err => inr err
       end |}.

Definition query_failed {T} (q : queryResult T) : Prop :=
  match q with
  | QueryErr _ => True
  | QueryOk _ => False
  end.

(** The fatal failures of a fetch cycle: the connection cannot be
    opened, the version cannot be determined, or one of the three
    aggregator queries fails to execute. *)
Definition fatal_failure (IntSize : Z) (w : World) (p : PostgresPlugin) : Prop :=
  match sqlx_Connect w "postgres" (dataSourceName p) with
  | inr _ => True
  | inl db =>
      is_Some (result_of (fetchVersion IntSize db)).2 \/
      query_failed (query_stat_database db "SELECT * FROM pg_stat_database") \/
      query_failed (query_stat_activity db
                      (connectionsQuery (result_of (fetchVersion IntSize db)).1)) \/
      query_failed (query_database_size db query_size)
  end.

(** The sum of [uint64] values, in [uint64]. *)
Definition uint64_sum (l : list Z) : Z := wrap64 (fold_right Z.add 0 l).

(** The sum of [float64] values, added left to right. *)
Definition float64_sum (l : list float) : float :=
  match l with
  | [] => 0%float
  | x :: l' => fold_left PrimFloat.add l' x
  end.

(** The sum of the values that are there, if any. *)
Definition optional_sum {A} (sum : list A -> A) (l : list A) : option A :=
  match l with
  | [] => None
  | _ => Some (sum l)
  end.

Definition is_uint64 (z : Z) : Prop := 0 <= z < 2 ^ 64.

Definition is_uint64_opt (o : option Z) : Prop :=
  match o with Some z => is_uint64 z | None => True end.

(** A decoded [pg_stat_database] row holds [uint64] values. *)
Definition uint64_row (r : pgStatRow) : Prop :=
  is_uint64 (col_xact_commit r) /\ is_uint64 (col_xact_rollback r) /\
  is_uint64 (col_blks_read r) /\ is_uint64 (col_blks_hit r) /\
  is_uint64 (col_tup_returned r) /\ is_uint64 (col_tup_fetched r) /\
  is_uint64 (col_tup_inserted r) /\ is_uint64 (col_tup_updated r) /\
  is_uint64 (col_tup_deleted r) /\
  is_uint64_opt (col_deadlocks r) /\ is_uint64_opt (col_temp_bytes r).

(** ** Example servers *)

Definition pg10_version : string :=
  "PostgreSQL 10.1 on x86_64-pc-linux-gnu, compiled by gcc (GCC) 4.8.5 20150623 (Red Hat 4.8.5-16), 64-bit".

Definition pg96_version : string :=
  "PostgreSQL 9.6.3 on x86_64-pc-linux-gnu, compiled by gcc (GCC) 4.8.5 20150623 (Red Hat 4.8.5-11), 64-bit".

Definition example_stat_row (commit : Z) (read_time : option float) (deadlocks : option Z)
    : pgStatRow :=
  {| col_xact_commit := commit; col_xact_rollback := 1;
     col_blks_read := 2; col_blks_hit := 3;
     col_blk_read_time := read_time; col_blk_write_time := None;
     col_tup_returned := 4; col_tup_fetched := 5; col_tup_inserted := 6;
     col_tup_updated := 7; col_tup_deleted := 8;
     col_deadlocks := deadlocks; col_temp_bytes := None |}.

(** Three databases with commit counts 10, 20 and 5, one of them with a
    null deadlock count, and one row that fails to scan. *)
Definition example_stat_rows : list (scan pgStatRow) :=
  [ Scanned (example_stat_row 10 (Some 1.5%float) (Some 4));
    Scanned (example_stat_row 20 (Some 2.5%float) None);
    ScanFailed (DriverError "sql: Scan error");
    Scanned (example_stat_row 5 None (Some 7)) ].

Definition example_activity_rows : list (scan (float * string * bool)) :=
  [ Scanned (3%float, "idle in transaction (aborted)", false);
    Scanned (2%float, "active", true);
    ScanFailed (DriverError "sql: Scan error");
    Scanned (1%float, "idle", false) ].

Definition example_db (versionStr : string) : DB :=
  {| query_version := fun _ => QueryOk [Scanned versionStr];
     query_stat_database := fun _ => QueryOk example_stat_rows;
     query_stat_activity := fun _ => QueryOk example_activity_rows;
     query_database_size := fun _ => QueryOk [Scanned 7000000%float] |}.

(** A server without connections or databases to report. *)
Definition idle_db : DB :=
  {| query_version := fun _ => QueryOk [Scanned pg96_version];
     query_stat_database := fun _ => QueryOk [];
     query_stat_activity := fun _ => QueryOk [];
     query_database_size := fun _ => QueryOk [] |}.

Definition example_world (db : DB) : World := {| sqlx_Connect := fun _ _ => inl db |}.

Definition example_plugin : PostgresPlugin :=
  {| Host := "localhost"; Port := "5432"; Username := "postgres";
     Password := "secret"; SSLmode := "disable"; Prefix := "postgres";
     Timeout := 5; Tempfile := ""; Option := "" |}.

(** ** Auxiliary definitions

    Views of the code's data that the statements and proofs of Part II
    use. *)

(** The last byte of a string. *)
Fixpoint last_byte (s : string) : option ascii :=
  match s with
  | EmptyString => None
  | String c EmptyString => Some c
  | String _ s' => last_byte s'
  end.

(** Number of leading bytes of [s] that satisfy [p]. *)
Fixpoint span (p : ascii -> bool) (s : string) : nat :=
  match s with
  | String c s' => if p c then S (span p s') else O
  | EmptyString => O
  end.

Definition not_key_byte (c : ascii) : bool := negb (is_key_byte c).

Section CellViews.
Context {A : Type} (add : A -> A -> A) (d : A).

(** A pointer field designates an allocated cell. *)
Definition ptr_ok (cells : list A) (o : option loc) : Prop :=
  match o with
  | Some l => (l < List.length cells)%nat
  | None => True
  end.

Definition ptrs_distinct (o1 o2 : option loc) : Prop :=
  match o1, o2 with
  | Some l1, Some l2 => l1 <> l2
  | _, _ => True
  end.

(** The value behind a pointer field, if it is not [nil]. *)
Definition deref (cells : list A) (o : option loc) : option A :=
  load d cells <$> o.

(** What the [if p.X != nil] block computes, on values. *)
Definition addOpt (total p : option A) : option A :=
  match p with
  | None => total
  | Some v =>
      match total with
      | None => Some v
      | Some t => Some (add t v)
      end
  end.

End CellViews.

(** The total as values: every pointer field is replaced by the content
    of its cell. *)
Definition view (t : pgStat) (h : heap) : pgStatRow :=
  {| col_xact_commit := XactCommit t;
     col_xact_rollback := XactRollback t;
     col_blks_read := BlksRead t;
     col_blks_hit := BlksHit t;
     col_blk_read_time := deref 0%float (float_cells h) (BlkReadTime t);
     col_blk_write_time := deref 0%float (float_cells h) (BlkWriteTime t);
     col_tup_returned := TupReturned t;
     col_tup_fetched := TupFetched t;
     col_tup_inserted := TupInserted t;
     col_tup_updated := TupUpdated t;
     col_tup_deleted := TupDeleted t;
     col_deadlocks := deref 0 (uint_cells h) (Deadlocks t);
     col_temp_bytes := deref 0 (uint_cells h) (TempBytes t) |}.

(** One row added to the total, on values. *)
Definition addRow (t r : pgStatRow) : pgStatRow :=
  {| col_xact_commit := add64 (col_xact_commit t) (col_xact_commit r);
     col_xact_rollback := add64 (col_xact_rollback t) (col_xact_rollback r);
     col_blks_read := add64 (col_blks_read t) (col_blks_read r);
     col_blks_hit := add64 (col_blks_hit t) (col_blks_hit r);
     col_blk_read_time := addOpt PrimFloat.add (col_blk_read_time t) (col_blk_read_time r);
     col_blk_write_time := addOpt PrimFloat.add (col_blk_write_time t) (col_blk_write_time r);
     col_tup_returned := add64 (col_tup_returned t) (col_tup_returned r);
     col_tup_fetched := add64 (col_tup_fetched t) (col_tup_fetched r);
     col_tup_inserted := add64 (col_tup_inserted t) (col_tup_inserted r);
     col_tup_updated := add64 (col_tup_updated t) (col_tup_updated r);
     col_tup_deleted := add64 (col_tup_deleted t) (col_tup_deleted r);
     col_deadlocks := addOpt add64 (col_deadlocks t) (col_deadlocks r);
     col_temp_bytes := addOpt add64 (col_temp_bytes t) (col_temp_bytes r) |}.

(** The pointer fields of the total designate allocated cells, and no
    two of them the same cell. *)
Definition heap_ok (t : pgStat) (h : heap) : Prop :=
  (ptr_ok (float_cells h) (BlkReadTime t) /\
   ptr_ok (float_cells h) (BlkWriteTime t) /\
   ptrs_distinct (BlkReadTime t) (BlkWriteTime t)) /\
  (ptr_ok (uint_cells h) (Deadlocks t) /\
   ptr_ok (uint_cells h) (TempBytes t) /\
   ptrs_distinct (Deadlocks t) (TempBytes t)).


(** Every byte of [s] satisfies [p]. *)
Fixpoint all_bytes (p : ascii -> bool) (s : string) : bool :=
  match s with
  | EmptyString => true
  | String c s' => p c && all_bytes p s'
  end.

(** [s] starts with a byte that satisfies [p]. *)
Definition starts_with (p : ascii -> bool) (s : string) : bool :=
  match s with
  | EmptyString => false
  | String c _ => p c
  end.

(** A non-empty string of decimal digits. *)
Definition is_number (s : string) : Prop := s <> "" /\ all_bytes is_digit s = true.

(** The number written [n] followed by the digits [s]. *)
Fixpoint decimal (n : Z) (s : string) : Z :=
  match s with
  | EmptyString => n
  | String c s' => decimal (n * 10 + (Z.of_N (N_of_ascii c) - 48)) s'
  end.


(** ** Further reference definitions *)

(** The nine counters [fetchStatDatabase] always reports. *)
Definition counterKeys : list string :=
  ["xact_commit"; "xact_rollback"; "blks_read"; "blks_hit"; "tup_returned";
   "tup_fetched"; "tup_inserted"; "tup_updated"; "tup_deleted"].

(** The four counters [fetchStatDatabase] reports when a row has them. *)
Definition optionalKeys : list string :=
  ["blk_read_time"; "blk_write_time"; "deadlocks"; "temp_bytes"].

(** The key a scanned [pg_stat_activity] row is stored under. *)
Definition rowKey (row : float * string * bool) : string :=
  normalizeState row.1.2 row.2.

(** [G] declares a metric called [name], with the given [Diff] flag. *)
Definition declares (G : gmap string Graphs) (name : string) (diff : bool) : Prop :=
  exists key g mt,
    G !! key = Some g /\ mt ∈ GMetrics g /\ Name mt = name /\ Diff mt = diff.

(** A server whose activity view has two labels with the same key. *)
Definition colliding_db : DB :=
  {| query_version := fun _ => QueryOk [Scanned pg96_version];
     query_stat_database := fun _ => QueryOk [];
     query_stat_activity := fun _ =>
       QueryOk [Scanned (4%float, "idle in transaction", false);
                Scanned (9%float, "idle_in_transaction", false);
                Scanned (1%float, "active", false)];
     query_database_size := fun _ => QueryOk [] |}.

(** The number written [s] fits a [uint] of [IntSize] bits. *)
Definition fits (IntSize : Z) (s : string) : bool := decimal 0 s <? 2 ^ IntSize.

(** A row of [select version()] that scans and that [versionRe] does
    not match. *)
Definition unmatched_row (r : scan string) : Prop :=
  exists s, r = Scanned s /\ FindStringSubmatch versionRe s = [].

(** What [fetchVersion] returns for a row that reads
    ["PostgreSQL major.minor.patch ..."]. *)
Definition three_part_result (IntSize : Z) (major minor patch : string)
    : version * option error :=
  if negb (fits IntSize major)
  then (version_zero, Some (rangeError "ParseUint" major))
  else if negb (fits IntSize minor)
  then (version_zero, Some (rangeError "ParseUint" minor))
  else if negb (fits IntSize patch)
  then (version_zero, Some (rangeError "ParseUint" patch))
  else ({| first := decimal 0 major; second := decimal 0 minor;
           thrird := decimal 0 patch |}, None).

(** A server that answers the version query with a banner line before
    the version, and more rows after it. *)
Definition banner_db (versionStr : string) : DB :=
  {| query_version := fun _ =>
       QueryOk [Scanned "EnterpriseDB build"; Scanned versionStr; Scanned "PostgreSQL 1.2.3 "];
     query_stat_database := fun _ => QueryOk example_stat_rows;
     query_stat_activity := fun _ => QueryOk example_activity_rows;
     query_database_size := fun _ => QueryOk [Scanned 7000000%float] |}.

(** A continuation that returns capture lists of [n] entries when it is
    given one. *)
Definition keeps (n : nat) (k : cont) : Prop :=
  forall s pos caps caps',
    List.length caps = n -> k s pos caps = Some caps' -> List.length caps' = n.

(* ===================================================================== *)
(** * The memcached plugin                                               *)
(* ===================================================================== *)

(** The line feed. *)
Definition LF : ascii := ascii_of_nat 10.

(** [strings.Split(s, sep)] for a separator of one byte: the fields
    between the separators, at least one. *)
Fixpoint Split (s : string) (sep : ascii) : list string :=
  match s with
  | EmptyString => [EmptyString]
  | String c s' =>
      if Ascii.eqb c sep then EmptyString :: Split s' sep
      else match Split s' sep with
           | field :: fields => String c field :: fields
           | [] => [String c EmptyString]
           end
  end.

Module Memcached.

(** The values [parseStats] puts into its [map[string]interface{}]: a
    string, or the [nil] that reading a missing key yields. *)
Inductive value : Type :=
| Nil
| Str (s : string).

Abbreviation statMap := (gmap string value).

(** A [bufio.Scanner] over the connection, as [parseStats] uses it: the
    lines that [Scan] and [Text] deliver, and what [Err] returns once
    [Scan] has returned false. *)
Record Scanner : Type := {
  tokens : list string;
  scan_err : option error
}.

(** A call returns, or panics with "index out of range [index] with
    length len". *)
Inductive outcome : Type :=
| Returns (stat : option statMap) (err : option error)
| Panics (index len : nat).

(** [stat[key]] as an expression *)
Definition index (stat : statMap) (key : string) : value := default Nil (stat !! key).

(** [for scanner.Scan() { ... }] and what follows the loop. *)
Fixpoint scanLoop (lines : list string) (err : option error) (stat : statMap) : outcome :=
  match lines with
  | [] =>
      match err with
      | Some e => Returns (Some stat) (Some e)
      | None => Returns None None
      end
  | s :: lines' =>
      if String.eqb s "END"
      then Returns (Some (<["new_items" := index stat "total_items"]> stat)) None
      else
        let res := Split s " " in
        match res !! 0%nat with
        | None => Panics 0 (List.length res)
        | Some res0 =>
            if String.eqb res0 "STAT" then
              match res !! 1%nat with
              | None => Panics 1 (List.length res)
              | Some res1 =>
                  match res !! 2%nat with
                  | None => Panics 2 (List.length res)
                  | Some res2 => scanLoop lines' err (<[res1 := Str res2]> stat)
                  end
              end
            else scanLoop lines' err stat
        end
  end.

Definition parseStats (conn : Scanner) : outcome :=
  scanLoop (tokens conn) (scan_err conn) ∅.

Record MemcachedPlugin : Type := {
  Target : string;
  Socket : string;
  Tempfile : string;
  Prefix : string
}.

Definition MetricKeyPrefix (m : MemcachedPlugin) : string :=
  if String.eqb (Prefix m) "" then "memcached" else Prefix m.

(** What happens on the network: a dial, bytes written to the
    connection, the connection closed. *)
Inductive net_event : Type :=
| EvDial (network address : string)
| EvWrite (data : string)
| EvConnClose.

(** [net.Dial]: an error, or a connection, which is what a scanner over
    it delivers after the given bytes were written to it. *)
Record Net : Type := {
  net_Dial : string -> string -> (string -> Scanner) + error
}.

Definition FetchMetrics (net : Net) (m : MemcachedPlugin) : outcome * list net_event :=
  let network := "tcp" in
  let target := Target m in
  let '(network, target) :=
    if negb (String.eqb (Socket m) "") then ("unix", Socket m) else (network, target) in
  match net_Dial net network target with
  | inr err => (Returns None (Some err), [EvDial network target])
  | inl conn =>
      (* fmt.Fprintln(conn, "stats") *)
      let request := "stats" ++ String LF "" in
      (parseStats (conn request), [EvDial network target; EvWrite request])
  end.

(** *** Reference definitions *)

(** A line that makes [parseStats] panic: its first field is [STAT] and
    it has fewer than three fields. *)
Definition short_stat (s : string) : bool :=
  let res := Split s " " in
  String.eqb (nth 0 res "") "STAT" && (List.length res <? 3)%nat.

(** The line memcached writes for a statistic. *)
Definition statLine (kv : string * string) : string :=
  "STAT " ++ kv.1 ++ " " ++ kv.2.

Definition no_space (s : string) : bool :=
  all_bytes (fun c => negb (Ascii.eqb c " ")) s.

(** An answer to [stats] that ends early, with a read error. *)
Definition truncated_conn : Scanner :=
  {| tokens := ["STAT pid 4711"; "STAT total_items 12"];
     scan_err := Some (ErrorString "read: connection reset by peer") |}.

(** A complete answer, with a line after [END]. *)
Definition complete_conn : Scanner :=
  {| tokens := ["STAT pid 4711"; "STAT total_items 12"; "STAT pid 4712"; "END"; "STAT"];
     scan_err := Some (ErrorString "read: connection reset by peer") |}.

Definition example_net : Net :=
  {| net_Dial := fun network _ =>
       if String.eqb network "unix" then inl (fun _ => complete_conn)
       else inr (ErrorString "dial tcp: connection refused") |}.

End Memcached.

(* ===================================================================== *)
(** * The varnish plugin                                                 *)
(* ===================================================================== *)

Module Varnish.

Definition notSpace (c : ascii) : bool := negb (Ascii.eqb c " ").

(** [regexp.Compile("^([^ ]+) +(\\d+)")], after its anchor. *)
Definition lineexp : regexp :=
  Cat (Group 1 (Plus (Class notSpace)))
 (Cat (Plus (Lit " "))
      (Group 2 (Plus (Class is_digit)))).

(** [re.FindStringSubmatch(s)] for a pattern that begins with [^]: only
    a match that starts at the beginning of [s] counts. *)
Definition FindStringSubmatchAtStart (re : regexp) (s : string) : list string :=
  match matchAt re s 0 with
  | None => []
  | Some caps => map (slice s) caps
  end.

Definition graphdef : gmap string Graphs :=
  list_to_map [
    ("varnish.requests",
     {| GLabel := "Varnish Client Requests";
        Unit := "integer";
        GMetrics := [
          {| Name := "requests"; Label := "Requests"; Diff := true; Stacked := false |};
          {| Name := "cache_hits"; Label := "Hits"; Diff := true; Stacked := false |} ] |})
  ].

Record VarnishPlugin : Type := {
  VarnishStatPath : string;
  Tempfile : string
}.

(** [exec.Command(name, arg...).Output()]: the standard output of the
    command, or an error. *)
Record OS : Type := {
  exec_Output : string -> list string -> string + error
}.

Section Plugin.

(** [strconv.ParseFloat], from the Go standard library. *)
Variable ParseFloat : string -> Z -> float * option error.

(** The body of the loop over the lines; [err] is the variable the
    function returns at its end. *)
Definition lineStep (acc : gmap string float * option error) (line : string)
    : gmap string float * option error :=
  let '(stat, err) := acc in
  let match_ := FindStringSubmatchAtStart lineexp line in
  match match_ with
  | [] => (stat, err)
  | _ :: _ =>
      let name := nth 1 match_ "" in
      if String.eqb name "client_req" || String.eqb name "MAIN.client_req" then
        let '(f, err) := ParseFloat (nth 2 match_ "") 64 in
        (<["requests" := f]> stat, err)
      else if String.eqb name "cache_hit" || String.eqb name "MAIN.cache_hit" then
        let '(f, err) := ParseFloat (nth 2 match_ "") 64 in
        (<["cache_hits" := f]> stat, err)
      else (stat, err)
  end.

Definition FetchMetrics (os : OS) (m : VarnishPlugin)
    : option (gmap string float) * option error :=
  match exec_Output os (VarnishStatPath m) ["-1"] with
  | inr err => (None, Some err)
  | inl out =>
      let '(stat, err) := fold_left lineStep (Split out LF) (∅, None) in
      (Some stat, err)
  end.

Definition GraphDefinition (m : VarnishPlugin) : gmap string Graphs := graphdef.

End Plugin.

(** *** Reference definitions *)

(** The key a line of [varnishstat -1] sets, if it sets one. *)
Definition lineKey (line : string) : option string :=
  match FindStringSubmatchAtStart lineexp line with
  | [] => None
  | match_ =>
      let name := nth 1 match_ "" in
      if String.eqb name "client_req" || String.eqb name "MAIN.client_req"
      then Some "requests"
      else if String.eqb name "cache_hit" || String.eqb name "MAIN.cache_hit"
      then Some "cache_hits"
      else None
  end.

(** The number a line hands to [ParseFloat]. *)
Definition lineNumber (line : string) : string :=
  nth 2 (FindStringSubmatchAtStart lineexp line) "".

(** [n] spaces. *)
Definition spaces (n : nat) : string := string_of_list_ascii (repeat " "%char n).

(** A [ParseFloat] that knows two numbers and reports every other one
    as out of range. *)
Definition example_ParseFloat (s : string) (bitSize : Z) : float * option error :=
  if String.eqb s "1234" then (1234%float, None)
  else if String.eqb s "77" then (77%float, None)
  else (infinity, Some (NumError "ParseFloat" s ErrRange)).

Definition example_output : string :=
  "MAIN.client_req 99999999999 0.5 Good client requests" ++ String LF
  ("MAIN.cache_hit      77         0.10 Cache hits" ++ String LF
  ("MAIN.client_req   1234         0.50 Good client requests" ++ String LF
  (" MAIN.cache_hit 5 indented" ++ String LF
  ("MAIN.cache_miss 12 0.1 Cache misses" ++ String LF "")))).

Definition example_os : OS :=
  {| exec_Output := fun path _ =>
       if String.eqb path "/usr/bin/varnishstat" then inl example_output
       else inr (ErrorString "exec: no such file or directory") |}.

Definition example_plugin : VarnishPlugin :=
  {| VarnishStatPath := "/usr/bin/varnishstat"; Tempfile := "" |}.

End Varnish.

(* ===================================================================== *)
(** * Part II: properties                                                *)
(* ===================================================================== *)

(** ** Strings *)

#[local] Arguments String.append !s1 s2 : simpl nomatch.

Lemma append_nil_r (s : string) : s ++ "" = s.
Proof. induction s as [|c s IH]; simpl; [reflexivity | now rewrite IH]. Qed.

Lemma append_assoc (a b c : string) : (a ++ b) ++ c = a ++ (b ++ c).
Proof. induction a as [|x a IH]; simpl; [reflexivity | now rewrite IH]. Qed.

Lemma last_byte_app (a b : string) :
  last_byte (a ++ b) = match b with EmptyString => last_byte a | _ => last_byte b end.
Proof.
  induction a as [|x a IH]; simpl.
  - now destruct b.
  - rewrite IH. destruct a as [|y a]; simpl; destruct b; reflexivity.
Qed.

Lemma ends_with_underscore_last (s : string) :
  ends_with_underscore s <-> last_byte s = Some "_"%char.
Proof.
  split.
  - intros [t ->]. now rewrite last_byte_app.
  - induction s as [|c s IH]; simpl; [discriminate|].
    destruct s as [|d s].
    + intros [= ->]. now exists "".
    + intros H. destruct (IH H) as [t Ht]. exists (String c t). simpl. now rewrite Ht.
Qed.

(** ** The regular-expression engine on [c+] *)

Lemma exec_Plus r1 s pos caps k :
  exec (Plus r1) s pos caps k = plusLoop (exec r1) k (S (String.length s)) s pos caps.
Proof. reflexivity. Qed.

(** With a continuation that always accepts, [p+] takes the whole run. *)
Lemma plusLoop_class_greedy (p : ascii -> bool) (g : nat -> captures -> captures) :
  forall fuel s pos caps,
    (String.length s < fuel)%nat ->
    plusLoop (exec (Class p)) (fun _ pos' caps' => Some (g pos' caps')) fuel s pos caps =
    match s with
    | String c s' => if p c then Some (g (S pos + span p s')%nat caps) else None
    | EmptyString => None
    end.
Proof.
  induction fuel as [|fuel IH]; intros s pos caps Hlen; [lia|].
  destruct s as [|c s']; simpl; [reflexivity|].
  destruct (p c); [|reflexivity].
  replace (pos <? S pos)%nat with true by (symmetry; apply Nat.ltb_lt; lia).
  rewrite IH by (simpl in Hlen; lia).
  destruct s' as [|c' s'']; simpl.
  - now rewrite Nat.add_0_r.
  - destruct (p c'); simpl.
    + do 2 f_equal. lia.
    + now rewrite Nat.add_0_r.
Qed.

Lemma matchLen_normalizeRe (c : ascii) (s : string) :
  matchLen normalizeRe (String c s) =
  if is_key_byte c then None else Some (S (span not_key_byte s)).
Proof.
  unfold matchLen, matchAt, normalizeRe. rewrite exec_Plus. cbn [NumSubexp].
  pose proof (plusLoop_class_greedy not_key_byte
    (fun pos' caps => <[0%nat := Some (0%nat, pos')]> caps)
    (S (String.length (String c s))) (String c s) 0%nat
    (replicate 1 None)) as H.
  cbv beta in H. unfold not_key_byte at 1 2 in H. rewrite H by lia. clear H.
  unfold not_key_byte at 1. destruct (is_key_byte c); reflexivity.
Qed.

Lemma replaceAll_normalizeRe (s : string) :
  replaceAll normalizeRe "_" 0 s = spec_collapse false s /\
  replaceAll normalizeRe "_" (span not_key_byte s) s = spec_collapse true s.
Proof.
  induction s as [|c s [IH0 IH1]]; [split; reflexivity|].
  assert (H0 : replaceAll normalizeRe "_" 0 (String c s) = spec_collapse false (String c s)).
  { cbn [replaceAll spec_collapse]. rewrite matchLen_normalizeRe.
    destruct (is_key_byte c); [now rewrite IH0|].
    now rewrite IH1. }
  split; [exact H0|].
  cbn [span]. unfold not_key_byte at 1.
  destruct (is_key_byte c) eqn:Hc; cbn [negb].
  - rewrite H0. cbn [spec_collapse]. now rewrite Hc.
  - cbn [replaceAll spec_collapse]. now rewrite Hc.
Qed.

(** The code's [ReplaceAllString] call collapses runs as the
    specification words it. *)
Lemma ReplaceAllString_normalizeRe (s : string) :
  ReplaceAllString normalizeRe s "_" = spec_collapse false s.
Proof. apply replaceAll_normalizeRe. Qed.

(** What [spec_collapse] does to one maximal run: after key bytes [x],
    a run [r] of other bytes that ends where [y] starts becomes a single
    underscore. *)
Lemma spec_collapse_in_run (r y : string) :
  all_bytes not_key_byte r = true -> starts_with not_key_byte y = false ->
  spec_collapse true (r ++ y) = spec_collapse false y.
Proof.
  intros Hr Hy. induction r as [|c r IH].
  - change ("" ++ y) with y. destruct y as [|d y]; [reflexivity|].
    cbn [starts_with] in Hy. unfold not_key_byte in Hy.
    cbn [spec_collapse]. destruct (is_key_byte d); [reflexivity|discriminate].
  - cbn [all_bytes] in Hr. apply andb_prop in Hr as [Hc Hr].
    unfold not_key_byte in Hc. change (String c r ++ y) with (String c (r ++ y)).
    cbn [spec_collapse]. destruct (is_key_byte c); [discriminate|]. now apply IH.
Qed.

Lemma spec_collapse_run (x r y : string) :
  all_bytes is_key_byte x = true ->
  r <> "" -> all_bytes not_key_byte r = true ->
  starts_with not_key_byte y = false ->
  spec_collapse false (x ++ r ++ y) = x ++ "_" ++ spec_collapse false y.
Proof.
  intros Hx Hne Hr Hy. induction x as [|c x IH].
  - change ("" ++ r ++ y) with (r ++ y). destruct r as [|c r]; [contradiction|].
    cbn [all_bytes] in Hr. apply andb_prop in Hr as [Hc Hr].
    unfold not_key_byte in Hc. change (String c r ++ y) with (String c (r ++ y)).
    cbn [spec_collapse]. destruct (is_key_byte c); [discriminate|].
    now rewrite spec_collapse_in_run.
  - cbn [all_bytes] in Hx. apply andb_prop in Hx as [Hc Hx].
    change (String c x ++ r ++ y) with (String c (x ++ r ++ y)).
    cbn [spec_collapse]. rewrite Hc, IH by assumption. reflexivity.
Qed.

(** ** [strings.TrimRight] *)

Lemma TrimRight_underscore_decomp (s : string) :
  exists n, s = TrimRight s "_" ++ underscores n.
Proof.
  induction s as [|c s [n IH]]; [now exists 0%nat|].
  cbn [TrimRight]. destruct (TrimRight s "_") as [|d t] eqn:Ht.
  - cbn [contains_byte]. destruct (Ascii.eqb_spec c "_") as [->|Hc]; simpl.
    + exists (S n). simpl. now rewrite IH at 1.
    + exists n. simpl. now rewrite IH at 1.
  - exists n. simpl. now rewrite IH at 1.
Qed.

Lemma TrimRight_underscore_last (s : string) :
  last_byte (TrimRight s "_") <> Some "_"%char.
Proof.
  induction s as [|c s IH]; [discriminate|].
  cbn [TrimRight]. destruct (TrimRight s "_") as [|d t] eqn:Ht.
  - cbn [contains_byte]. destruct (Ascii.eqb_spec c "_") as [->|Hc]; simpl.
    + discriminate.
    + congruence.
  - exact IH.
Qed.

(** ** The State Normalizer *)

Lemma normalizeState_unfold (state : string) (waiting : bool) :
  normalizeState state waiting =
  TrimRight (spec_collapse false state) "_" ++ (if waiting then "_waiting" else "").
Proof.
  unfold normalizeState. rewrite ReplaceAllString_normalizeRe.
  destruct waiting; [reflexivity | now rewrite append_nil_r].
Qed.

Lemma normalizeState_last (state : string) (waiting : bool) :
  last_byte (normalizeState state waiting) <> Some "_"%char.
Proof.
  rewrite normalizeState_unfold, last_byte_app. destruct waiting.
  - discriminate.
  - apply TrimRight_underscore_last.
Qed.

(** C4: the State Normalizer is total; its result is the input with every
    maximal run of bytes outside [A-Za-z0-9_-] collapsed to one
    underscore ([spec_collapse]), without the trailing underscores ([t] is
    what is left of it once [n] trailing underscores are removed and ends
    in none), followed by ["_waiting"] exactly when the waiting flag is
    set.  The two examples of the specification are instances. *)
Theorem normalizeState_spec (state : string) (waiting : bool) :
  (exists t n,
     spec_collapse false state = t ++ underscores n /\
     ~ ends_with_underscore t /\
     normalizeState state waiting = t ++ (if waiting then "_waiting" else "")) /\
  normalizeState "idle in transaction" false = "idle_in_transaction" /\
  normalizeState "active" true = "active_waiting".
Proof.
  split; [|split; reflexivity].
  destruct (TrimRight_underscore_decomp (spec_collapse false state)) as [n Hn].
  exists (TrimRight (spec_collapse false state) "_"), n.
  split; [exact Hn|]. split.
  - rewrite ends_with_underscore_last. apply TrimRight_underscore_last.
  - apply normalizeState_unfold.
Qed.

(** ** The Query Selector *)

Lemma query_modern_legacy : query_modern <> query_legacy.
Proof. discriminate. Qed.

(** C3: the query depends on the version only; it is the [wait_event]
    query exactly when major > 9, or major = 9 and minor >= 6, and the
    [waiting] query otherwise; 9.5.x is legacy, 9.6.0 and 10.0.0 are
    modern; [fetchConnections] sends exactly the selected query. *)
Theorem connectionsQuery_boundary (v : version) :
  (connectionsQuery v = query_modern <->
     first v > 9 \/ (first v = 9 /\ second v >= 6)) /\
  (connectionsQuery v = query_legacy <->
     ~ (first v > 9 \/ (first v = 9 /\ second v >= 6))) /\
  (forall patch, connectionsQuery {| first := 9; second := 5; thrird := patch |} = query_legacy) /\
  connectionsQuery {| first := 9; second := 6; thrird := 0 |} = query_modern /\
  connectionsQuery {| first := 10; second := 0; thrird := 0 |} = query_modern /\
  (forall db, trace_of (fetchConnections db v) = [EvQuery (connectionsQuery v)]).
Proof.
  assert (Hsel : connectionsQuery v =
                 if (9 <? first v) || ((first v =? 9) && (6 <=? second v))
                 then query_modern else query_legacy) by reflexivity.
  assert (Hne := query_modern_legacy).
  repeat split; try reflexivity.
  - intros H. rewrite Hsel in H.
    destruct (9 <? first v) eqn:E1; [left; apply Z.ltb_lt in E1; lia|].
    destruct (first v =? 9) eqn:E2; destruct (6 <=? second v) eqn:E3; simpl in H;
      try (symmetry in H; contradiction).
    right. apply Z.eqb_eq in E2. apply Z.leb_le in E3. lia.
  - intros H. rewrite Hsel.
    destruct H as [H|[H1 H2]].
    + replace (9 <? first v) with true by (symmetry; apply Z.ltb_lt; lia). reflexivity.
    + replace (first v =? 9) with true by (symmetry; apply Z.eqb_eq; lia).
      replace (6 <=? second v) with true by (symmetry; apply Z.leb_le; lia).
      now rewrite orb_true_r.
  - intros H [H1|[H1 H2]]; rewrite Hsel in H.
    + replace (9 <? first v) with true in H by (symmetry; apply Z.ltb_lt; lia).
      simpl in H. contradiction.
    + replace (first v =? 9) with true in H by (symmetry; apply Z.eqb_eq; lia).
      replace (6 <=? second v) with true in H by (symmetry; apply Z.leb_le; lia).
      rewrite orb_true_r in H. contradiction.
  - intros H. rewrite Hsel.
    destruct (9 <? first v) eqn:E1; [exfalso; apply H; left; apply Z.ltb_lt in E1; lia|].
    destruct (first v =? 9) eqn:E2; [|reflexivity].
    destruct (6 <=? second v) eqn:E3; [|reflexivity].
    exfalso; apply H; right. apply Z.eqb_eq in E2. apply Z.leb_le in E3. lia.
  - intros db. unfold fetchConnections, trace_of, Query, io_bind.
    destruct (query_stat_activity db (connectionsQuery v)); reflexivity.
Qed.

(** ** The connection-state aggregator *)

Lemma fetchConnections_result (db : DB) (v : version) :
  result_of (fetchConnections db v) =
  match query_stat_activity db (connectionsQuery v) with
  | QueryErr err => (None, Some err)
  | QueryOk rows => (Some (fold_left connRowStep rows connectionsSeed), None)
  end.
Proof.
  unfold fetchConnections, result_of, Query, io_bind.
  destruct (query_stat_activity db (connectionsQuery v)); reflexivity.
Qed.

(** A key no row writes keeps its value through the row loop. *)
Lemma connRowLoop_untouched (rows : list (scan (float * string * bool))) :
  forall (m : metricMap) (k : string),
    (forall count state waiting,
        Scanned (count, state, waiting) ∈ rows -> normalizeState state waiting <> k) ->
    fold_left connRowStep rows m !! k = m !! k.
Proof.
  induction rows as [|row rows IH]; intros m k Hk; [reflexivity|].
  cbn [fold_left]. rewrite IH.
  - destruct row as [[[count state] waiting]|e]; [|reflexivity].
    cbn [connRowStep]. apply lookup_insert_ne. apply (Hk count). left.
  - intros count state waiting Hin. apply (Hk count). now right.
Qed.

(** The row loop never removes a key. *)
Lemma connRowLoop_keeps (rows : list (scan (float * string * bool))) :
  forall (m : metricMap) (k : string),
    is_Some (m !! k) -> is_Some (fold_left connRowStep rows m !! k).
Proof.
  induction rows as [|row rows IH]; intros m k Hk; [exact Hk|].
  cbn [fold_left]. apply IH.
  destruct row as [[[count state] waiting]|e]; [|exact Hk].
  cbn [connRowStep]. rewrite lookup_insert_is_Some.
  destruct (decide (normalizeState state waiting = k)); auto.
Qed.

(** Every key of the result is a seeded key or the key of a row. *)
Lemma connRowLoop_keys (rows : list (scan (float * string * bool))) :
  forall (m : metricMap) (k : string),
    is_Some (fold_left connRowStep rows m !! k) ->
    is_Some (m !! k) \/
    exists count state waiting,
      Scanned (count, state, waiting) ∈ rows /\ k = normalizeState state waiting.
Proof.
  induction rows as [|row rows IH]; intros m k Hk; [now left|].
  cbn [fold_left] in Hk. destruct (IH _ _ Hk) as [H|(count & state & waiting & Hin & ->)].
  - destruct row as [[[count state] waiting]|e]; [|now left].
    cbn [connRowStep] in H. rewrite lookup_insert_is_Some in H.
    destruct H as [<-|[_ H]]; [|now left].
    right. exists count, state, waiting. split; [left|reflexivity].
  - right. exists count, state, waiting. split; [now right|reflexivity].
Qed.

Lemma connectionsSeed_lookup (k : string) :
  connectionsSeed !! k = if decide (k ∈ seededKeys) then Some (Float64 0%float) else None.
Proof.
  unfold seededKeys. case_decide as Hin.
  - repeat (apply elem_of_cons in Hin as [->|Hin]; [reflexivity|]).
    now apply elem_of_nil in Hin.
  - unfold connectionsSeed.
    repeat (rewrite lookup_insert_ne;
            [|intros <-; apply Hin; repeat constructor]).
    apply lookup_empty.
Qed.

(** C5: whenever the query succeeds, whatever rows it returns, the
    result holds the five seeded keys, and a seeded key that no scanned
    row produces has the value 0; with zero rows all five are 0. *)
Theorem fetchConnections_seeded (db : DB) (v : version)
    (rows : list (scan (float * string * bool))) :
  query_stat_activity db (connectionsQuery v) = QueryOk rows ->
  exists m : metricMap,
    result_of (fetchConnections db v) = (Some m, None) /\
    (forall k, k ∈ seededKeys ->
       is_Some (m !! k) /\
       ((forall count state waiting,
            Scanned (count, state, waiting) ∈ rows -> normalizeState state waiting <> k) ->
        m !! k = Some (Float64 0%float))) /\
    (rows = [] -> forall k, k ∈ seededKeys -> m !! k = Some (Float64 0%float)).
Proof.
  intros Hq. rewrite fetchConnections_result, Hq.
  eexists; split; [reflexivity|].
  assert (Hseed : forall k, k ∈ seededKeys -> connectionsSeed !! k = Some (Float64 0%float)).
  { intros k Hk. rewrite connectionsSeed_lookup. now rewrite decide_True. }
  split.
  - intros k Hk. split.
    + apply connRowLoop_keeps. rewrite (Hseed k Hk). eauto.
    + intros Hno. rewrite connRowLoop_untouched by exact Hno. now apply Hseed.
  - intros -> k Hk. now apply Hseed.
Qed.

(** C10: a key built from a state label never ends in an underscore, the
    connections graph declares the metric name
    ["idle_in_transaction_aborted_"], and no key of a map returned by
    [fetchConnections] ends in an underscore, so none equals that name. *)
Theorem connection_keys_never_end_with_underscore :
  (forall state waiting, ~ ends_with_underscore (normalizeState state waiting)) /\
  (forall Title p, exists g,
      GraphDefinition Title p !! "connections" = Some g /\
      "idle_in_transaction_aborted_" ∈ map Name (GMetrics g)) /\
  (forall db v m key,
      fst (result_of (fetchConnections db v)) = Some m ->
      is_Some (m !! key) ->
      ~ ends_with_underscore key /\ key <> "idle_in_transaction_aborted_").
Proof.
  assert (Hnorm : forall state waiting, ~ ends_with_underscore (normalizeState state waiting)).
  { intros state waiting. rewrite ends_with_underscore_last. apply normalizeState_last. }
  split; [exact Hnorm|]. split.
  - intros Title p. eexists. split; [reflexivity|].
    cbn [GMetrics map Name]. repeat constructor.
  - intros db v m key Hm Hkey.
    assert (Hend : ~ ends_with_underscore key).
    { rewrite fetchConnections_result in Hm.
      destruct (query_stat_activity db (connectionsQuery v)) as [rows|e]; [|discriminate].
      injection Hm as <-.
      destruct (connRowLoop_keys _ _ _ Hkey) as [H|(count & state & waiting & _ & ->)].
      - rewrite connectionsSeed_lookup in H. case_decide as Hin; [|now destruct H].
        rewrite ends_with_underscore_last.
        unfold seededKeys in Hin.
        repeat (apply elem_of_cons in Hin as [->|Hin]; [discriminate|]).
        now apply elem_of_nil in Hin.
      - apply Hnorm. }
    split; [exact Hend|].
    intros ->. apply Hend. now exists "idle_in_transaction_aborted".
Qed.

(** ** The Metric Map Merge *)

Lemma mergeEntries_lookup (entries : list (string * value)) :
  forall (dst : metricMap) (k : string),
    NoDup entries.*1 ->
    mergeEntries dst entries !! k =
    match (list_to_map entries : metricMap) !! k with
    | Some v => Some v
    | None => dst !! k
    end.
Proof.
  induction entries as [|[k0 v0] entries IH]; intros dst k Hnd.
  - cbn. now rewrite lookup_empty.
  - apply NoDup_cons in Hnd as [Hk0 Hnd].
    change (mergeEntries dst ((k0, v0) :: entries))
      with (mergeEntries (<[k0 := v0]> dst) entries).
    rewrite IH by exact Hnd. cbn [list_to_map foldr].
    destruct (decide (k0 = k)) as [->|Hne].
    + rewrite !lookup_insert_eq.
      now rewrite (not_elem_of_list_to_map_1 (M := gmap string) entries k Hk0).
    + now rewrite !lookup_insert_ne by exact Hne.
Qed.

(** Whatever order [range] visits the entries of [src] in, the merge
    gives [src ∪ dst]: the entries of [src], and those of [dst] whose key
    [src] does not have. *)
Lemma mergeEntries_any_order (dst src : metricMap) (entries : list (string * value)) :
  entries ≡ₚ map_to_list src -> mergeEntries dst entries = src ∪ dst.
Proof.
  intros Hperm. apply map_eq; intros k.
  assert (Hnd : NoDup entries.*1).
  { rewrite Hperm. apply NoDup_fst_map_to_list. }
  rewrite mergeEntries_lookup by exact Hnd.
  rewrite (list_to_map_proper (M := gmap string) entries (map_to_list src) Hnd Hperm).
  rewrite list_to_map_to_list, lookup_union.
  destruct (src !! k), (dst !! k); reflexivity.
Qed.

Lemma mergeStat_union (dst src : metricMap) : mergeStat dst src = src ∪ dst.
Proof. now apply mergeEntries_any_order. Qed.

Lemma mergeStat_lookup (dst src : metricMap) (k : string) :
  mergeStat dst src !! k =
  match src !! k with Some v => Some v | None => dst !! k end.
Proof.
  rewrite mergeStat_union, lookup_union.
  destruct (src !! k), (dst !! k); reflexivity.
Qed.


(** ** The database-wide aggregator: pointers and cells *)

Section CellLemmas.
Context {A : Type} (add : A -> A -> A) (d : A).

Lemma load_app_l (cells : list A) (v : A) (l : loc) :
  (l < List.length cells)%nat -> load d (cells ++ [v]) l = load d cells l.
Proof. intros H. unfold load. now rewrite lookup_app_l. Qed.

Lemma load_new (cells : list A) (v : A) :
  load d (cells ++ [v]) (List.length cells) = v.
Proof. unfold load. now rewrite list_lookup_middle. Qed.

Lemma load_store_eq (cells : list A) (v : A) (l : loc) :
  (l < List.length cells)%nat -> load d (store cells l v) l = v.
Proof. intros H. unfold load, store. now rewrite list_lookup_insert_eq. Qed.

Lemma load_store_ne (cells : list A) (v : A) (l l' : loc) :
  l <> l' -> load d (store cells l v) l' = load d cells l'.
Proof. intros H. unfold load, store. now rewrite list_lookup_insert_ne. Qed.

Lemma length_store (cells : list A) (v : A) (l : loc) :
  List.length (store cells l v) = List.length cells.
Proof. apply length_insert. Qed.

Lemma deref_agree (cs cs' : list A) (o : option loc) :
  (forall l, o = Some l -> load d cs' l = load d cs l) -> deref d cs' o = deref d cs o.
Proof. destruct o as [l|]; cbn; [|reflexivity]. intros H. now rewrite (H l). Qed.

(** Scanning a column: old cells are untouched, a non-null column gets
    a cell that did not exist before. *)
Lemma scan_ptr_spec (cells cs : list A) (c : option A) (p : option loc) :
  scan_ptr cells c = (p, cs) ->
  (List.length cells <= List.length cs)%nat /\
  (forall l, (l < List.length cells)%nat -> load d cs l = load d cells l) /\
  deref d cs p = c /\
  (forall l, p = Some l -> (List.length cells <= l < List.length cs)%nat).
Proof.
  destruct c as [v|]; cbn; intros [= <- <-].
  - rewrite length_app. cbn [List.length]. repeat split.
    + lia.
    + intros l Hl. now apply load_app_l.
    + cbn. now rewrite load_new.
    + injection H as <-. lia.
    + injection H as <-. lia.
  - repeat split; [lia|discriminate|discriminate].
Qed.

(** Adding a row's pointer into the total's pointer: the total's own
    pointer is kept if there is one, otherwise the row's is adopted; the
    only cell written is the total's. *)
Lemma add_ptr_spec (cs cs' : list A) (t p r : option loc) :
  add_ptr add d cs t p = (r, cs') ->
  ptr_ok cs t ->
  List.length cs' = List.length cs /\
  r = match t with Some _ => t | None => p end /\
  deref d cs' r = addOpt add (deref d cs t) (deref d cs p) /\
  (forall l, t <> Some l -> load d cs' l = load d cs l).
Proof.
  destruct p as [lp|], t as [lt|]; unfold add_ptr; intros [= <- <-] Hok;
    repeat split; try reflexivity.
  - apply length_store.
  - cbn [deref addOpt fmap option_fmap option_map]. cbn in Hok.
    now rewrite load_store_eq.
  - intros l Hl. apply load_store_ne. congruence.
Qed.

(** Scanning two pointer columns of a row and adding them to the two
    pointer fields of the total: the fields of the total stay allocated
    and distinct, and the values behind them are added as [addOpt] says,
    although the total shares a cell with the first row that had a
    value. *)
Lemma scan_add_two (cells : list A) (t1 t2 : option loc) (c1 c2 : option A) :
  ptr_ok cells t1 -> ptr_ok cells t2 -> ptrs_distinct t1 t2 ->
  forall p1 cs1 p2 cs2 r1 cs3 r2 cs4,
    scan_ptr cells c1 = (p1, cs1) ->
    scan_ptr cs1 c2 = (p2, cs2) ->
    add_ptr add d cs2 t1 p1 = (r1, cs3) ->
    add_ptr add d cs3 t2 p2 = (r2, cs4) ->
    ptr_ok cs4 r1 /\ ptr_ok cs4 r2 /\ ptrs_distinct r1 r2 /\
    deref d cs4 r1 = addOpt add (deref d cells t1) c1 /\
    deref d cs4 r2 = addOpt add (deref d cells t2) c2.
Proof.
  intros H1 H2 H12 p1 cs1 p2 cs2 r1 cs3 r2 cs4 E1 E2 E3 E4.
  destruct (scan_ptr_spec _ _ _ _ E1) as (Hlen1 & Hold1 & Hd1 & Hfresh1).
  destruct (scan_ptr_spec _ _ _ _ E2) as (Hlen2 & Hold2 & Hd2 & Hfresh2).
  assert (Hok1 : ptr_ok cs2 t1) by (destruct t1; cbn in *; [lia|exact I]).
  destruct (add_ptr_spec _ _ _ _ _ E3 Hok1) as (Hlen3 & Hr1 & Hd3 & Hframe3).
  assert (Hok2 : ptr_ok cs3 t2) by (destruct t2; cbn in *; [lia|exact I]).
  destruct (add_ptr_spec _ _ _ _ _ E4 Hok2) as (Hlen4 & Hr2 & Hd4 & Hframe4).
  assert (Hp1 : forall l, p1 = Some l -> (List.length cells <= l < List.length cs1)%nat)
    by exact Hfresh1.
  assert (Hp2 : forall l, p2 = Some l -> (List.length cs1 <= l < List.length cs2)%nat)
    by exact Hfresh2.
  (* where r1 and r2 point *)
  assert (Hr1b : forall l, r1 = Some l -> (l < List.length cs1)%nat /\ t2 <> Some l).
  { intros l ->. destruct t1 as [l1|]; cbn in H1, H12.
    - injection Hr1 as ->. split; [lia|]. destruct t2; cbn in H12; congruence.
    - symmetry in Hr1. specialize (Hp1 _ Hr1). split; [lia|].
      destruct t2 as [l2|]; [|discriminate]. cbn in H2. intros [= ->]. lia. }
  assert (Hr2b : forall l, r2 = Some l ->
                   (l < List.length cs2)%nat /\
                   (t2 = Some l \/ (List.length cs1 <= l)%nat)).
  { intros l ->. destruct t2 as [l2|]; cbn in H2.
    - injection Hr2 as ->. split; [lia|now left].
    - symmetry in Hr2. specialize (Hp2 _ Hr2). split; [lia|right; lia]. }
  split; [|split; [|split; [|split]]].
  - destruct r1 as [l|]; [|exact I]. cbn. destruct (Hr1b l eq_refl). lia.
  - destruct r2 as [l|]; [|exact I]. cbn. destruct (Hr2b l eq_refl). lia.
  - destruct r1 as [la|], r2 as [lb|]; try exact I. cbn.
    destruct (Hr1b la eq_refl) as [Ha1 Ha2].
    destruct (Hr2b lb eq_refl) as [_ [Hb|Hb]]; [congruence|lia].
  - transitivity (deref d cs3 r1).
    { apply deref_agree. intros l Hl. apply Hframe4. now apply Hr1b. }
    rewrite Hd3. f_equal.
    + transitivity (deref d cs1 t1); [|]; apply deref_agree; intros l ->; cbn in H1.
      * apply Hold2. lia.
      * now apply Hold1.
    + rewrite <- Hd1. apply deref_agree. intros l Hl. apply Hold2.
      specialize (Hp1 _ Hl). lia.
  - rewrite Hd4. f_equal.
    + transitivity (deref d cs2 t2).
      { apply deref_agree. intros l ->. apply Hframe3.
        destruct t1; cbn in H12; congruence. }
      transitivity (deref d cs1 t2); apply deref_agree; intros l ->; cbn in H2.
      * apply Hold2. lia.
      * now apply Hold1.
    + rewrite <- Hd2. apply deref_agree. intros l Hl. apply Hframe3.
      specialize (Hp2 _ Hl). destruct t1 as [l1|]; [|discriminate].
      cbn in H1. intros [= ->]. lia.
Qed.

(** Folding [addOpt] over the rows adds up the values that are there. *)
Lemma fold_addOpt {R} (col : R -> option A) (rs : list R) :
  forall o0,
    fold_left (fun o r => addOpt add o (col r)) rs o0 =
    match o0, omap col rs with
    | None, [] => None
    | None, x :: l => Some (fold_left add l x)
    | Some t, l => Some (fold_left add l t)
    end.
Proof.
  induction rs as [|r rs IH]; intros o0; [now destruct o0|].
  cbn [fold_left]. rewrite IH.
  change (omap col (r :: rs))
    with (match col r with Some y => y :: omap col rs | None => omap col rs end).
  destruct (col r) as [v|], o0 as [t|]; reflexivity.
Qed.

End CellLemmas.

(** ** The database-wide aggregator: the row loop on values *)

Lemma statRowStep_view (t : pgStat) (h : heap) (row : pgStatRow) :
  heap_ok t h ->
  heap_ok (statRowStep (t, h) (Scanned row)).1 (statRowStep (t, h) (Scanned row)).2 /\
  view (statRowStep (t, h) (Scanned row)).1 (statRowStep (t, h) (Scanned row)).2 =
  addRow (view t h) row.
Proof.
  intros [(Hf1 & Hf2 & Hf12) (Hu1 & Hu2 & Hu12)].
  unfold statRowStep, StructScan, accumulate.
  destruct (scan_ptr (float_cells h) (col_blk_read_time row)) as [pf1 fc1] eqn:Ef1.
  destruct (scan_ptr fc1 (col_blk_write_time row)) as [pf2 fc2] eqn:Ef2.
  destruct (scan_ptr (uint_cells h) (col_deadlocks row)) as [pu1 uc1] eqn:Eu1.
  destruct (scan_ptr uc1 (col_temp_bytes row)) as [pu2 uc2] eqn:Eu2.
  cbn [float_cells uint_cells BlkReadTime BlkWriteTime Deadlocks TempBytes].
  destruct (add_ptr PrimFloat.add 0%float fc2 (BlkReadTime t) pf1) as [rf1 fc3] eqn:Ef3.
  destruct (add_ptr PrimFloat.add 0%float fc3 (BlkWriteTime t) pf2) as [rf2 fc4] eqn:Ef4.
  destruct (add_ptr add64 0 uc2 (Deadlocks t) pu1) as [ru1 uc3] eqn:Eu3.
  destruct (add_ptr add64 0 uc3 (TempBytes t) pu2) as [ru2 uc4] eqn:Eu4.
  destruct (scan_add_two PrimFloat.add 0%float _ _ _ _ _ Hf1 Hf2 Hf12
              _ _ _ _ _ _ _ _ Ef1 Ef2 Ef3 Ef4) as (Fa & Fb & Fc & Fd & Fe).
  destruct (scan_add_two add64 0 _ _ _ _ _ Hu1 Hu2 Hu12
              _ _ _ _ _ _ _ _ Eu1 Eu2 Eu3 Eu4) as (Ua & Ub & Uc & Ud & Ue).
  split.
  - unfold heap_ok. cbn. auto 10.
  - unfold view, addRow. cbn -[deref addOpt add64]. now rewrite Fd, Fe, Ud, Ue.
Qed.

Lemma statRowLoop_view (rows : list (scan pgStatRow)) :
  forall (t : pgStat) (h : heap),
    heap_ok t h ->
    heap_ok (fold_left statRowStep rows (t, h)).1 (fold_left statRowStep rows (t, h)).2 /\
    view (fold_left statRowStep rows (t, h)).1 (fold_left statRowStep rows (t, h)).2 =
    fold_left addRow (scanned rows) (view t h).
Proof.
  induction rows as [|row rows IH]; intros t h Hok; [now split|].
  cbn [fold_left scanned]. destruct row as [cols|e].
  - destruct (statRowStep_view t h cols Hok) as [Hok' Hview].
    destruct (statRowStep (t, h) (Scanned cols)) as [t' h'].
    cbn [fst snd] in Hok', Hview.
    destruct (IH t' h' Hok') as [Hok'' Hview'']. split; [exact Hok''|].
    rewrite Hview''. cbn [fold_left]. now rewrite Hview.
  - now apply IH.
Qed.

Lemma heap_ok_zero : heap_ok pgStat_zero empty_heap.
Proof. repeat split. Qed.

(** A field of the folded total, from the way one row changes it. *)
Lemma fold_addRow_field {B} (f : pgStatRow -> B) (g : B -> pgStatRow -> B) :
  (forall t r, f (addRow t r) = g (f t) r) ->
  forall rs t0, f (fold_left addRow rs t0) = fold_left g rs (f t0).
Proof.
  intros Hfg. induction rs as [|r rs IH]; intros t0; [reflexivity|].
  cbn [fold_left]. now rewrite IH, Hfg.
Qed.

Lemma fold_left_add64 (l : list Z) :
  forall x, fold_left add64 l (wrap64 x) = wrap64 (x + fold_right Z.add 0 l).
Proof.
  induction l as [|y l IH]; intros x; cbn [fold_left fold_right].
  - now rewrite Z.add_0_r.
  - change (add64 (wrap64 x) y) with (wrap64 (wrap64 x + y)). rewrite IH.
    unfold wrap64. now rewrite <- Z.add_assoc, Zplus_mod_idemp_l.
Qed.

Lemma wrap64_small (x : Z) : is_uint64 x -> wrap64 x = x.
Proof. intros H. apply Z.mod_small. exact H. Qed.

(** The [uint64] sum is the sum of the values as long as that fits 64
    bits. *)
Lemma uint64_sum_exact (l : list Z) :
  Forall is_uint64 l -> fold_right Z.add 0 l < 2 ^ 64 ->
  uint64_sum l = fold_right Z.add 0 l.
Proof.
  intros Hl Hsum. apply wrap64_small. split; [|exact Hsum].
  clear Hsum. induction Hl as [|x l Hx _ IH]; cbn [fold_right]; [lia|].
  destruct Hx. lia.
Qed.

(** An always-present counter: the [uint64] sum over the scanned rows. *)
Lemma fold_addRow_counter (col : pgStatRow -> Z) (rs : list pgStatRow) (t0 : pgStatRow) :
  (forall t r, col (addRow t r) = add64 (col t) (col r)) ->
  col t0 = 0 ->
  col (fold_left addRow rs t0) = uint64_sum (map col rs).
Proof.
  intros Hcol H0.
  rewrite (fold_addRow_field col (fun b r => add64 b (col r)) Hcol), H0.
  transitivity (fold_left add64 (map col rs) (wrap64 0)).
  - change (wrap64 0) with 0. generalize 0.
    induction rs as [|r rs IH]; intros x; [reflexivity|].
    cbn [fold_left map]. apply IH.
  - rewrite fold_left_add64. unfold uint64_sum. now rewrite Z.add_0_l.
Qed.

(** An optionally-present [uint64] counter: absent if no scanned row has
    a value, otherwise the [uint64] sum of the values that are there. *)
Lemma fold_addRow_optional_uint (col : pgStatRow -> option Z)
    (rs : list pgStatRow) (t0 : pgStatRow) :
  (forall t r, col (addRow t r) = addOpt add64 (col t) (col r)) ->
  col t0 = None ->
  Forall (fun r => is_uint64_opt (col r)) rs ->
  col (fold_left addRow rs t0) = optional_sum uint64_sum (omap col rs).
Proof.
  intros Hcol H0 Hrange.
  rewrite (fold_addRow_field col (fun o r => addOpt add64 o (col r)) Hcol), H0.
  rewrite fold_addOpt.
  assert (Hin : Forall is_uint64 (omap col rs)).
  { clear Hcol H0. induction Hrange as [|r rs Hr _ IH]; [constructor|].
    change (omap col (r :: rs))
      with (match col r with Some y => y :: omap col rs | None => omap col rs end).
    destruct (col r); [constructor|]; assumption. }
  destruct Hin as [|x l Hx _]; [reflexivity|].
  cbn [optional_sum]. f_equal. unfold uint64_sum. cbn [fold_right].
  rewrite <- (wrap64_small x Hx) at 1. apply fold_left_add64.
Qed.

(** An optionally-present [float64] counter. *)
Lemma fold_addRow_optional_float (col : pgStatRow -> option float)
    (rs : list pgStatRow) (t0 : pgStatRow) :
  (forall t r, col (addRow t r) = addOpt PrimFloat.add (col t) (col r)) ->
  col t0 = None ->
  col (fold_left addRow rs t0) = optional_sum float64_sum (omap col rs).
Proof.
  intros Hcol H0.
  rewrite (fold_addRow_field col (fun o r => addOpt PrimFloat.add o (col r)) Hcol), H0.
  rewrite fold_addOpt. now destruct (omap col rs).
Qed.

Lemma optional_sum_is_Some {A R} (sum : list A -> A) (col : R -> option A) (rs : list R) :
  is_Some (optional_sum sum (omap col rs)) <-> Exists (fun r => is_Some (col r)) rs.
Proof.
  induction rs as [|r rs IH].
  - cbn. split; [intros [x Hx]; discriminate | intros H; inversion H].
  - change (omap col (r :: rs))
      with (match col r with Some y => y :: omap col rs | None => omap col rs end).
    rewrite Exists_cons. destruct (col r) as [y|] eqn:E.
    + split; [intros _; left; eauto | intros _; cbn; eauto].
    + rewrite IH. split; [now right | intros [[x Hx]|H]; [discriminate|exact H]].
Qed.

(** What the map built from the total holds. *)
Lemma statOfTotal_lookup (t : pgStat) (h : heap) :
  let m := statOfTotal t h in
  let v := view t h in
  m !! "xact_commit" = Some (Uint64 (col_xact_commit v)) /\
  m !! "xact_rollback" = Some (Uint64 (col_xact_rollback v)) /\
  m !! "blks_read" = Some (Uint64 (col_blks_read v)) /\
  m !! "blks_hit" = Some (Uint64 (col_blks_hit v)) /\
  m !! "blk_read_time" = Float64 <$> col_blk_read_time v /\
  m !! "blk_write_time" = Float64 <$> col_blk_write_time v /\
  m !! "tup_returned" = Some (Uint64 (col_tup_returned v)) /\
  m !! "tup_fetched" = Some (Uint64 (col_tup_fetched v)) /\
  m !! "tup_inserted" = Some (Uint64 (col_tup_inserted v)) /\
  m !! "tup_updated" = Some (Uint64 (col_tup_updated v)) /\
  m !! "tup_deleted" = Some (Uint64 (col_tup_deleted v)) /\
  m !! "deadlocks" = Uint64 <$> col_deadlocks v /\
  m !! "temp_bytes" = Uint64 <$> col_temp_bytes v.
Proof.
  unfold statOfTotal, set_float_if_present, set_uint_if_present, view,
    load_float, load_uint.
  cbn [col_xact_commit col_xact_rollback col_blks_read col_blks_hit
       col_blk_read_time col_blk_write_time col_tup_returned col_tup_fetched
       col_tup_inserted col_tup_updated col_tup_deleted col_deadlocks
       col_temp_bytes].
  destruct (BlkReadTime t), (BlkWriteTime t), (Deadlocks t), (TempBytes t);
    repeat split; reflexivity.
Qed.

(** ** The database-wide aggregator: the result *)

Lemma fetchStatDatabase_result (db : DB) :
  result_of (fetchStatDatabase db) =
  match query_stat_database db query_stat with
  | QueryErr err => (None, Some err)
  | QueryOk rows => (Some (statOfTotal (statRowLoop rows).1 (statRowLoop rows).2), None)
  end.
Proof.
  unfold fetchStatDatabase, result_of, Query, io_bind, query_stat.
  destruct (query_stat_database db _) as [rows|e]; [|reflexivity].
  now destruct (statRowLoop rows).
Qed.

Lemma fetchDatabaseSize_result (db : DB) :
  result_of (fetchDatabaseSize db) =
  match query_database_size db query_size with
  | QueryErr err => (None, Some err)
  | QueryOk rows =>
      (Some (<["total_size" := Float64 (fold_left sizeRowStep rows 0%float)]> ∅), None)
  end.
Proof.
  unfold fetchDatabaseSize, result_of, Query, io_bind.
  destruct (query_database_size db query_size); reflexivity.
Qed.

Lemma statRowLoop_view_scanned (rows : list (scan pgStatRow)) :
  view (statRowLoop rows).1 (statRowLoop rows).2 =
  fold_left addRow (scanned rows) (view pgStat_zero empty_heap).
Proof. apply statRowLoop_view, heap_ok_zero. Qed.

(** C2: over any list of rows, [fetchStatDatabase] reports each
    always-present counter as the [uint64] sum (the sum modulo 2^64) over
    all scanned rows, and each optionally-present counter (blk_read_time,
    blk_write_time, deadlocks, temp_bytes) if and only if some scanned
    row has a non-null value for it, with the sum of exactly the non-null
    values ([uint64] sum for the integer counters, left-to-right
    [float64] sum for the timing counters). *)
Theorem fetchStatDatabase_sums (db : DB) (rows : list (scan pgStatRow)) :
  query_stat_database db "SELECT * FROM pg_stat_database" = QueryOk rows ->
  Forall uint64_row (scanned rows) ->
  exists m : metricMap,
    result_of (fetchStatDatabase db) = (Some m, None) /\
    (m !! "xact_commit" = Some (Uint64 (uint64_sum (map col_xact_commit (scanned rows)))) /\
     m !! "xact_rollback" = Some (Uint64 (uint64_sum (map col_xact_rollback (scanned rows)))) /\
     m !! "blks_read" = Some (Uint64 (uint64_sum (map col_blks_read (scanned rows)))) /\
     m !! "blks_hit" = Some (Uint64 (uint64_sum (map col_blks_hit (scanned rows)))) /\
     m !! "tup_returned" = Some (Uint64 (uint64_sum (map col_tup_returned (scanned rows)))) /\
     m !! "tup_fetched" = Some (Uint64 (uint64_sum (map col_tup_fetched (scanned rows)))) /\
     m !! "tup_inserted" = Some (Uint64 (uint64_sum (map col_tup_inserted (scanned rows)))) /\
     m !! "tup_updated" = Some (Uint64 (uint64_sum (map col_tup_updated (scanned rows)))) /\
     m !! "tup_deleted" = Some (Uint64 (uint64_sum (map col_tup_deleted (scanned rows))))) /\
    (m !! "blk_read_time" =
       Float64 <$> optional_sum float64_sum (omap col_blk_read_time (scanned rows)) /\
     m !! "blk_write_time" =
       Float64 <$> optional_sum float64_sum (omap col_blk_write_time (scanned rows)) /\
     m !! "deadlocks" =
       Uint64 <$> optional_sum uint64_sum (omap col_deadlocks (scanned rows)) /\
     m !! "temp_bytes" =
       Uint64 <$> optional_sum uint64_sum (omap col_temp_bytes (scanned rows))) /\
    ((is_Some (m !! "blk_read_time") <->
        Exists (fun r => is_Some (col_blk_read_time r)) (scanned rows)) /\
     (is_Some (m !! "blk_write_time") <->
        Exists (fun r => is_Some (col_blk_write_time r)) (scanned rows)) /\
     (is_Some (m !! "deadlocks") <->
        Exists (fun r => is_Some (col_deadlocks r)) (scanned rows)) /\
     (is_Some (m !! "temp_bytes") <->
        Exists (fun r => is_Some (col_temp_bytes r)) (scanned rows))).
Proof.
  intros Hq Hrange.
  rewrite fetchStatDatabase_result. unfold query_stat. rewrite Hq.
  eexists. split; [reflexivity|].
  destruct (statOfTotal_lookup (statRowLoop rows).1 (statRowLoop rows).2)
    as (L1 & L2 & L3 & L4 & L5 & L6 & L7 & L8 & L9 & L10 & L11 & L12 & L13).
  rewrite statRowLoop_view_scanned in L1, L2, L3, L4, L5, L6, L7, L8, L9, L10, L11, L12, L13.
  set (rs := scanned rows) in *.
  set (t0 := view pgStat_zero empty_heap) in *.
  assert (Hdl : Forall (fun r => is_uint64_opt (col_deadlocks r)) rs).
  { eapply Forall_impl; [exact Hrange|]. intros r Hr. apply Hr. }
  assert (Htb : Forall (fun r => is_uint64_opt (col_temp_bytes r)) rs).
  { eapply Forall_impl; [exact Hrange|]. intros r Hr. apply Hr. }
  rewrite (fold_addRow_counter col_xact_commit rs t0) in L1 by reflexivity.
  rewrite (fold_addRow_counter col_xact_rollback rs t0) in L2 by reflexivity.
  rewrite (fold_addRow_counter col_blks_read rs t0) in L3 by reflexivity.
  rewrite (fold_addRow_counter col_blks_hit rs t0) in L4 by reflexivity.
  rewrite (fold_addRow_optional_float col_blk_read_time rs t0) in L5 by reflexivity.
  rewrite (fold_addRow_optional_float col_blk_write_time rs t0) in L6 by reflexivity.
  rewrite (fold_addRow_counter col_tup_returned rs t0) in L7 by reflexivity.
  rewrite (fold_addRow_counter col_tup_fetched rs t0) in L8 by reflexivity.
  rewrite (fold_addRow_counter col_tup_inserted rs t0) in L9 by reflexivity.
  rewrite (fold_addRow_counter col_tup_updated rs t0) in L10 by reflexivity.
  rewrite (fold_addRow_counter col_tup_deleted rs t0) in L11 by reflexivity.
  rewrite (fold_addRow_optional_uint col_deadlocks rs t0) in L12
    by (reflexivity || exact Hdl).
  rewrite (fold_addRow_optional_uint col_temp_bytes rs t0) in L13
    by (reflexivity || exact Htb).
  split; [repeat split; assumption|].
  split; [repeat split; assumption|].
  rewrite L5, L6, L12, L13, !fmap_is_Some.
  repeat split; apply optional_sum_is_Some.
Qed.

(** ** The fetch cycle *)

Lemma result_bind {A B} (m : IO A) (f : A -> IO B) :
  result_of (x <- m ;; f x) = result_of (f (result_of m)).
Proof.
  unfold result_of, io_bind. destruct m as [a tr1]. cbn [fst].
  now destruct (f a).
Qed.


Lemma result_defer {A} (cleanup : IO unit) (body : IO A) :
  result_of (defer cleanup body) = result_of body.
Proof. unfold defer. now rewrite !result_bind. Qed.






(** ** Rows whose scan fails *)

Lemma fold_left_without_failed {T S} (step : S -> scan T -> S) (rows : list (scan T)) :
  (forall acc e, step acc (ScanFailed e) = acc) ->
  forall acc, fold_left step rows acc = fold_left step (without_failed rows) acc.
Proof.
  intros Hskip. unfold without_failed.
  induction rows as [|[x|e] rows IH]; intros acc; cbn [fold_left scanned map].
  - reflexivity.
  - apply IH.
  - rewrite Hskip. apply IH.
Qed.

(** Each aggregator returns the same on a server and on the server
    without the rows that fail to scan. *)
Lemma aggregators_without_failed (db : DB) (v : version) :
  result_of (fetchStatDatabase (skip_failed_rows db)) = result_of (fetchStatDatabase db) /\
  result_of (fetchConnections (skip_failed_rows db) v) = result_of (fetchConnections db v) /\
  result_of (fetchDatabaseSize (skip_failed_rows db)) = result_of (fetchDatabaseSize db).
Proof.
  rewrite !fetchStatDatabase_result, !fetchConnections_result, !fetchDatabaseSize_result.
  cbn [skip_failed_rows query_stat_database query_stat_activity query_database_size].
  destruct (query_stat_database db query_stat) as [r1|e1];
  destruct (query_stat_activity db (connectionsQuery v)) as [r2|e2];
  destruct (query_database_size db query_size) as [r3|e3];
  cbn [without_failed_result]; unfold statRowLoop;
  rewrite <- ?(fold_left_without_failed statRowStep r1 (fun _ _ => eq_refl)),
          <- ?(fold_left_without_failed connRowStep r2 (fun _ _ => eq_refl)),
          <- ?(fold_left_without_failed sizeRowStep r3 (fun _ _ => eq_refl));
  repeat split; reflexivity.
Qed.

(** The whole fetch cycle returns the same when the rows that fail to
    scan are taken out of the aggregators' result sets. *)
Lemma FetchMetrics_without_failed (IntSize : Z) (w : World) (p : PostgresPlugin) :
  result_of (FetchMetrics IntSize (skip_failed_rows_everywhere w) p) =
  result_of (FetchMetrics IntSize w p).
Proof.
  unfold FetchMetrics. rewrite !result_bind.
  change (result_of (Connect (skip_failed_rows_everywhere w) "postgres" (dataSourceName p)))
    with (match sqlx_Connect w "postgres" (dataSourceName p) with
          | inl db => inl (skip_failed_rows db)
          | inr err => inr err
          end).
  change (result_of (Connect w "postgres" (dataSourceName p)))
    with (sqlx_Connect w "postgres" (dataSourceName p)).
  destruct (sqlx_Connect w "postgres" (dataSourceName p)) as [db|e]; [|reflexivity].
  rewrite !result_defer, !result_bind.
  change (fetchVersion IntSize (skip_failed_rows db)) with (fetchVersion IntSize db).
  destruct (result_of (fetchVersion IntSize db)) as [v [e|]]; [reflexivity|].
  destruct (aggregators_without_failed db v) as (H1 & H2 & H3).
  rewrite !result_bind, H1.
  destruct (result_of (fetchStatDatabase db)) as [a [e|]]; [reflexivity|].
  rewrite !result_bind, H2.
  destruct (result_of (fetchConnections db v)) as [b [e|]]; [reflexivity|].
  rewrite !result_bind, H3.
  destruct (result_of (fetchDatabaseSize db)) as [c [e|]]; reflexivity.
Qed.

(** C8: in each of the three aggregators a row whose scan fails is
    skipped: the result over a result set is the result over the same
    set without the failing rows, and so is the result of the whole fetch
    cycle; an aggregator reports an error exactly when its query failed
    to execute, with that error and no map, and otherwise succeeds with a
    map. *)
Theorem aggregators_skip_failed_rows (db : DB) (v : version) :
  (result_of (fetchStatDatabase db) = result_of (fetchStatDatabase (skip_failed_rows db)) /\
   result_of (fetchConnections db v) = result_of (fetchConnections (skip_failed_rows db) v) /\
   result_of (fetchDatabaseSize db) = result_of (fetchDatabaseSize (skip_failed_rows db))) /\
  (forall IntSize w p,
      result_of (FetchMetrics IntSize w p) =
      result_of (FetchMetrics IntSize (skip_failed_rows_everywhere w) p)) /\
  (forall e,
      (result_of (fetchStatDatabase db) = (None, Some e) <->
       query_stat_database db "SELECT * FROM pg_stat_database" = QueryErr e) /\
      (result_of (fetchConnections db v) = (None, Some e) <->
       query_stat_activity db (connectionsQuery v) = QueryErr e) /\
      (result_of (fetchDatabaseSize db) = (None, Some e) <->
       query_database_size db query_size = QueryErr e)) /\
  ((exists rows, query_stat_database db "SELECT * FROM pg_stat_database" = QueryOk rows) <->
   (exists m, result_of (fetchStatDatabase db) = (Some m, None))) /\
  ((exists rows, query_stat_activity db (connectionsQuery v) = QueryOk rows) <->
   (exists m, result_of (fetchConnections db v) = (Some m, None))) /\
  ((exists rows, query_database_size db query_size = QueryOk rows) <->
   (exists m, result_of (fetchDatabaseSize db) = (Some m, None))).
Proof.
  split.
  { destruct (aggregators_without_failed db v) as (H1 & H2 & H3). now rewrite H1, H2, H3. }
  split.
  { intros IntSize w p. symmetry. apply FetchMetrics_without_failed. }
  rewrite !fetchStatDatabase_result, !fetchConnections_result, !fetchDatabaseSize_result.
  change "SELECT * FROM pg_stat_database" with query_stat.
  destruct (query_stat_database db query_stat) as [r1|e1];
  destruct (query_stat_activity db (connectionsQuery v)) as [r2|e2];
  destruct (query_database_size db query_size) as [r3|e3];
  (split; [intros e; repeat split; intros H;
           (discriminate H || (injection H as ->; reflexivity))|]);
  repeat split;
    try (intros _; eexists; reflexivity);
    try (intros [? H]; discriminate H).
Qed.

(** C7: a fetch cycle ends in one of two ways.  After a fatal failure
    (connection, version, or one of the three aggregator queries) it
    returns no map and an error; otherwise it returns the map merged from
    the three aggregators and no error.  It never returns a map together
    with an error. *)
Theorem FetchMetrics_all_or_nothing (IntSize : Z) (w : World) (p : PostgresPlugin) :
  let r := result_of (FetchMetrics IntSize w p) in
  ((fatal_failure IntSize w p /\ r.1 = None /\ is_Some r.2) \/
   (~ fatal_failure IntSize w p /\
    exists db v a b c,
      sqlx_Connect w "postgres" (dataSourceName p) = inl db /\
      result_of (fetchVersion IntSize db) = (v, None) /\
      result_of (fetchStatDatabase db) = (Some a, None) /\
      result_of (fetchConnections db v) = (Some b, None) /\
      result_of (fetchDatabaseSize db) = (Some c, None) /\
      r = (Some (mergeStat (mergeStat (mergeStat ∅ a) b) c), None))) /\
  ~ (is_Some r.1 /\ is_Some r.2).
Proof.
  cbv zeta.
  assert (Hmain :
    (fatal_failure IntSize w p /\
     (result_of (FetchMetrics IntSize w p)).1 = None /\
     is_Some (result_of (FetchMetrics IntSize w p)).2) \/
    (~ fatal_failure IntSize w p /\
     exists db v a b c,
       sqlx_Connect w "postgres" (dataSourceName p) = inl db /\
       result_of (fetchVersion IntSize db) = (v, None) /\
       result_of (fetchStatDatabase db) = (Some a, None) /\
       result_of (fetchConnections db v) = (Some b, None) /\
       result_of (fetchDatabaseSize db) = (Some c, None) /\
       result_of (FetchMetrics IntSize w p) =
         (Some (mergeStat (mergeStat (mergeStat ∅ a) b) c), None))).
  { unfold FetchMetrics, fatal_failure. rewrite result_bind.
    change (result_of (Connect w "postgres" (dataSourceName p)))
      with (sqlx_Connect w "postgres" (dataSourceName p)).
    destruct (sqlx_Connect w "postgres" (dataSourceName p)) as [db|e].
    2:{ left. cbn. eauto. }
    rewrite result_defer, result_bind.
    destruct (result_of (fetchVersion IntSize db)) as [v [e|]] eqn:Ev.
    { left. cbn. eauto 6. }
    rewrite result_bind, fetchStatDatabase_result. unfold query_stat. cbn [fst snd].
    destruct (query_stat_database db "SELECT * FROM pg_stat_database") as [r1|e1] eqn:E1.
    2:{ left. cbn. eauto 6. }
    rewrite result_bind, fetchConnections_result.
    destruct (query_stat_activity db (connectionsQuery v)) as [r2|e2] eqn:E2.
    2:{ left. cbn. eauto 6. }
    rewrite result_bind, fetchDatabaseSize_result.
    destruct (query_database_size db query_size) as [r3|e3] eqn:E3.
    2:{ left. cbn. eauto 7. }
    right. split.
    - cbn. intros [[x Hx]|[[]|[[]|[]]]]. discriminate.
    - eexists db, v, _, _, _.
      split; [reflexivity|]. split; [exact Ev|].
      split; [rewrite fetchStatDatabase_result; unfold query_stat; rewrite E1; reflexivity|].
      split; [rewrite fetchConnections_result, E2; reflexivity|].
      split; [rewrite fetchDatabaseSize_result, E3; reflexivity|].
      reflexivity. }
  split; [exact Hmain|].
  destruct Hmain as [(_ & H1 & _)|(_ & db & v & a & b & c & _ & _ & _ & _ & _ & ->)].
  - rewrite H1. intros [[x Hx] _]. discriminate.
  - cbn. intros [_ [x Hx]]. discriminate.
Qed.


(** ** The Version Detector *)

Lemma ParseUint_empty (IntSize bitSize : Z) :
  ParseUint IntSize "" bitSize = (0, Some (NumError "ParseUint" "" ErrSyntax)).
Proof. reflexivity. Qed.

(** Whenever the pattern matches without its optional patch group, the
    fourth submatch is the empty string and the detector fails. *)
Lemma parseSubmatch_patch_absent (IntSize : Z) (whole major minor g3 : string) :
  is_Some (parseSubmatch IntSize [whole; major; minor; g3; ""]).2.
Proof.
  unfold parseSubmatch. cbn [subscript nth List.length Nat.eqb].
  destruct (ParseUint IntSize major 0) as [n1 [e1|]]; [cbn; eauto|].
  destruct (ParseUint IntSize minor 0) as [n2 [e2|]]; [cbn; eauto|].
  rewrite ParseUint_empty. cbn. eauto.
Qed.

(** A row the pattern does not match is passed over; when no row is
    left the detector fails. *)
Lemma versionRowLoop_no_match (IntSize : Z) (rows : list (scan string)) :
  (forall versionStr, Scanned versionStr ∈ rows ->
      FindStringSubmatch versionRe versionStr = []) ->
  is_Some (versionRowLoop IntSize rows).2.
Proof.
  induction rows as [|[versionStr|e] rows IH]; intros Hno; cbn [versionRowLoop].
  - cbn. eauto.
  - rewrite (Hno versionStr) by left. cbn [List.length Nat.leb]. apply IH.
    intros s Hs. apply Hno. now right.
  - cbn. eauto.
Qed.

(** *** The version pattern on well-formed version strings *)

Lemma length_append (a b : string) :
  String.length (a ++ b) = (String.length a + String.length b)%nat.
Proof. induction a as [|c a IH]; simpl; [reflexivity | now rewrite IH]. Qed.

Lemma substring_prefix (x y : string) : substring 0 (String.length x) (x ++ y) = x.
Proof.
  induction x as [|c x IH]; simpl.
  - now destruct y.
  - now rewrite IH.
Qed.

Lemma substring_skip (x y : string) (n m : nat) :
  substring (String.length x + n) m (x ++ y) = substring n m y.
Proof. induction x as [|c x IH]; simpl; [reflexivity | exact IH]. Qed.

Lemma substring_middle (x y z : string) :
  substring (String.length x) (String.length y) (x ++ y ++ z) = y.
Proof.
  rewrite <- (Nat.add_0_r (String.length x)), substring_skip.
  apply substring_prefix.
Qed.

Lemma exec_Cat r1 r2 s pos caps k :
  exec (Cat r1 r2) s pos caps k =
  exec r1 s pos caps (fun s' pos' caps' => exec r2 s' pos' caps' k).
Proof. reflexivity. Qed.

Lemma exec_Group i r1 s pos caps k :
  exec (Group i r1) s pos caps k =
  exec r1 s pos caps (fun s' pos' caps' => k s' pos' (<[i := Some (pos, pos')]> caps')).
Proof. reflexivity. Qed.

Lemma exec_Quest r1 s pos caps k :
  exec (Quest r1) s pos caps k = orElse (exec r1 s pos caps k) (k s pos caps).
Proof. reflexivity. Qed.

Lemma exec_Lit c s pos caps k :
  exec (Lit c) (String c s) pos caps k = k s (S pos) caps.
Proof. cbn [exec]. now rewrite Ascii.eqb_refl. Qed.

Lemma exec_LitString (lit s : string) :
  forall pos caps k,
    exec (LitString lit) (lit ++ s) pos caps k = k s (pos + String.length lit)%nat caps.
Proof.
  induction lit as [|c lit IH]; intros pos caps k.
  - cbn. now rewrite Nat.add_0_r.
  - cbn [LitString append String.length]. rewrite exec_Cat, exec_Lit, IH.
    f_equal. lia.
Qed.

Lemma exec_Class p c s pos caps k :
  exec (Class p) (String c s) pos caps k = if p c then k s (S pos) caps else None.
Proof. reflexivity. Qed.

Lemma plusLoop_S body k fuel s pos caps :
  plusLoop body k (S fuel) s pos caps =
  body s pos caps (fun s' pos' caps' =>
    orElse (if (pos <? pos')%nat then plusLoop body k fuel s' pos' caps' else None)
           (k s' pos' caps')).
Proof. reflexivity. Qed.

(** [p+] on a run of [p]-bytes that is followed by something else: the
    whole run is tried first, so if the rest of the pattern accepts
    there, that is the match. *)
Lemma plusLoop_class_run (p : ascii -> bool) (k : cont) (a s : string) (r : captures) :
  a <> "" -> all_bytes p a = true -> starts_with p s = false ->
  forall fuel pos caps,
    (String.length a <= fuel)%nat ->
    k s (pos + String.length a)%nat caps = Some r ->
    plusLoop (exec (Class p)) k fuel (a ++ s) pos caps = Some r.
Proof.
  intros Hne Hall Hs. induction a as [|c a IH]; [contradiction|].
  intros fuel pos caps Hfuel Hk. cbn [all_bytes] in Hall.
  apply andb_prop in Hall as [Hc Ha].
  destruct fuel as [|fuel]; [cbn in Hfuel; lia|].
  change (String c a ++ s) with (String c (a ++ s)).
  rewrite plusLoop_S, exec_Class, Hc.
  replace (pos <? S pos)%nat with true by (symmetry; apply Nat.ltb_lt; lia).
  destruct a as [|c' a'].
  - change ("" ++ s) with s. cbn [String.length] in Hk.
    replace (pos + 1)%nat with (S pos) in Hk by lia. rewrite Hk.
    destruct fuel as [|fuel]; [reflexivity|].
    rewrite plusLoop_S. destruct s as [|d s]; [reflexivity|].
    rewrite exec_Class. cbn [starts_with] in Hs. now rewrite Hs.
  - rewrite (IH ltac:(discriminate) Ha fuel (S pos) caps).
    + reflexivity.
    + cbn [String.length] in Hfuel |- *. lia.
    + rewrite <- Hk. f_equal. cbn [String.length]. lia.
Qed.

Lemma exec_Plus_class_run (p : ascii -> bool) (k : cont) (a s : string) (r : captures)
    (pos : nat) (caps : captures) :
  a <> "" -> all_bytes p a = true -> starts_with p s = false ->
  k s (pos + String.length a)%nat caps = Some r ->
  exec (Plus (Class p)) (a ++ s) pos caps k = Some r.
Proof.
  intros Hne Hall Hs Hk. rewrite exec_Plus.
  apply plusLoop_class_run; try assumption.
  rewrite length_append. lia.
Qed.

Lemma findFrom_hit (re : regexp) (s : string) (pos : nat) (caps : captures) :
  matchAt re s pos = Some caps -> findFrom re s pos = Some caps.
Proof. intros H. destruct s; cbn [findFrom]; now rewrite H. Qed.

Section VersionStrings.
Variables major minor : string.
Hypothesis Hmajor : is_number major.
Hypothesis Hminor : is_number minor.

(** ["PostgreSQL X.Y rest"]: the pattern matches at the start, and the
    patch groups take no part in the match. *)
Lemma versionRe_two_part (rest : string) :
  FindStringSubmatch versionRe ("PostgreSQL " ++ major ++ "." ++ minor ++ " " ++ rest) =
  ["PostgreSQL " ++ major ++ "." ++ minor ++ " "; major; minor; ""; ""].
Proof.
  destruct Hmajor as [Hne1 Hd1], Hminor as [Hne2 Hd2].
  set (la := String.length major). set (lb := String.length minor).
  assert (Hm : matchAt versionRe ("PostgreSQL " ++ major ++ "." ++ minor ++ " " ++ rest) 0 =
               Some [Some (0, 11 + la + 1 + lb + 1); Some (11, 11 + la);
                     Some (11 + la + 1, 11 + la + 1 + lb); None; None]%nat).
  { unfold matchAt.
    change (replicate (S (NumSubexp versionRe)) None)
      with ([None; None; None; None; None] : captures).
    unfold versionRe, digit.
    rewrite exec_Cat, exec_LitString, exec_Cat, exec_Group.
    apply exec_Plus_class_run; [assumption|assumption|reflexivity|].
    change ("." ++ minor ++ " " ++ rest) with (String "." (minor ++ " " ++ rest)).
    rewrite exec_Cat, exec_Lit, exec_Cat, exec_Group.
    apply exec_Plus_class_run; [assumption|assumption|reflexivity|].
    change (" " ++ rest) with (String " " rest).
    rewrite exec_Cat, exec_Quest.
    cbn [exec orElse Ascii.eqb Bool.eqb].
    cbn [String.length]. fold la lb. clearbody la lb.
    cbn.
    replace (la + 1 + lb + 1)%nat with (S (S (la + lb))) by lia.
    replace (la + 1 + lb)%nat with (S (la + lb)) by lia.
    replace (la + 1)%nat with (S la) by lia.
    reflexivity. }
  unfold FindStringSubmatch. rewrite (findFrom_hit _ _ _ _ Hm).
  cbn [map slice].
  replace (11 + la + 1 + lb + 1 - 0)%nat
    with (String.length ("PostgreSQL " ++ major ++ "." ++ minor ++ " "))
    by (rewrite !length_append; cbn [String.length]; lia).
  replace (11 + la - 11)%nat with (String.length major) by lia.
  replace (11 + la + 1 + lb - (11 + la + 1))%nat with (String.length minor) by lia.
  replace (11 + la + 1)%nat with (String.length ("PostgreSQL " ++ major ++ "."))
    by (rewrite !length_append; cbn [String.length]; lia).
  f_equal; [|f_equal; [|f_equal]].
  - etransitivity;
      [|apply (substring_prefix ("PostgreSQL " ++ major ++ "." ++ minor ++ " ") rest)].
    f_equal. now rewrite !append_assoc.
  - apply (substring_middle "PostgreSQL " major).
  - etransitivity;
      [|apply (substring_middle ("PostgreSQL " ++ major ++ ".") minor (" " ++ rest))].
    f_equal. now rewrite !append_assoc.
Qed.

End VersionStrings.

Lemma orElse_Some {A} (x y : option A) (r : A) : x = Some r -> orElse x y = Some r.
Proof. now intros ->. Qed.

Section VersionStrings3.
Variables major minor patch : string.
Hypothesis Hmajor : is_number major.
Hypothesis Hminor : is_number minor.
Hypothesis Hpatch : is_number patch.

(** ["PostgreSQL X.Y.Z rest"]: the pattern matches at the start and
    captures the three numbers. *)
Lemma versionRe_three_part (rest : string) :
  FindStringSubmatch versionRe
    ("PostgreSQL " ++ major ++ "." ++ minor ++ "." ++ patch ++ " " ++ rest) =
  ["PostgreSQL " ++ major ++ "." ++ minor ++ "." ++ patch ++ " ";
   major; minor; "." ++ patch; patch].
Proof.
  destruct Hmajor as [Hne1 Hd1], Hminor as [Hne2 Hd2], Hpatch as [Hne3 Hd3].
  set (la := String.length major). set (lb := String.length minor).
  set (lc := String.length patch).
  assert (Hm : matchAt versionRe
                 ("PostgreSQL " ++ major ++ "." ++ minor ++ "." ++ patch ++ " " ++ rest) 0 =
               Some [Some (0, 11 + la + 1 + lb + 1 + lc + 1); Some (11, 11 + la);
                     Some (11 + la + 1, 11 + la + 1 + lb);
                     Some (11 + la + 1 + lb, 11 + la + 1 + lb + 1 + lc);
                     Some (11 + la + 1 + lb + 1, 11 + la + 1 + lb + 1 + lc)]%nat).
  { unfold matchAt.
    change (replicate (S (NumSubexp versionRe)) None)
      with ([None; None; None; None; None] : captures).
    unfold versionRe, digit.
    rewrite exec_Cat, exec_LitString, exec_Cat, exec_Group.
    apply exec_Plus_class_run; [assumption|assumption|reflexivity|].
    change ("." ++ minor ++ "." ++ patch ++ " " ++ rest)
      with (String "." (minor ++ "." ++ patch ++ " " ++ rest)).
    rewrite exec_Cat, exec_Lit, exec_Cat, exec_Group.
    apply exec_Plus_class_run; [assumption|assumption|reflexivity|].
    change ("." ++ patch ++ " " ++ rest) with (String "." (patch ++ " " ++ rest)).
    rewrite exec_Cat, exec_Quest. apply orElse_Some.
    rewrite exec_Group, exec_Cat, exec_Lit, exec_Group.
    apply exec_Plus_class_run; [assumption|assumption|reflexivity|].
    change (" " ++ rest) with (String " " rest).
    rewrite exec_Lit.
    fold la lb lc. clearbody la lb lc. cbn.
    replace (la + 1 + lb + 1 + lc + 1)%nat with (S (S (S (la + lb + lc)))) by lia.
    replace (la + 1 + lb + 1 + lc)%nat with (S (S (la + lb + lc))) by lia.
    replace (la + 1 + lb + 1)%nat with (S (S (la + lb))) by lia.
    replace (la + 1 + lb)%nat with (S (la + lb)) by lia.
    replace (la + 1)%nat with (S la) by lia.
    replace (S (la + lb) + lc)%nat with (S (la + lb + lc)) by lia.
    reflexivity. }
  unfold FindStringSubmatch. rewrite (findFrom_hit _ _ _ _ Hm).
  cbn [map slice].
  replace (11 + la + 1 + lb + 1 + lc + 1 - 0)%nat
    with (String.length ("PostgreSQL " ++ major ++ "." ++ minor ++ "." ++ patch ++ " "))
    by (rewrite !length_append; cbn [String.length]; lia).
  replace (11 + la - 11)%nat with (String.length major) by lia.
  replace (11 + la + 1 + lb - (11 + la + 1))%nat with (String.length minor) by lia.
  replace (11 + la + 1 + lb + 1 + lc - (11 + la + 1 + lb))%nat
    with (String.length ("." ++ patch)) by (cbn [append String.length]; lia).
  replace (11 + la + 1 + lb + 1 + lc - (11 + la + 1 + lb + 1))%nat
    with (String.length patch) by lia.
  replace (11 + la + 1 + lb + 1)%nat
    with (String.length ("PostgreSQL " ++ major ++ "." ++ minor ++ "."))
    by (rewrite !length_append; cbn [String.length]; lia).
  replace (11 + la + 1 + lb)%nat
    with (String.length ("PostgreSQL " ++ major ++ "." ++ minor))
    by (rewrite !length_append; cbn [String.length]; lia).
  replace (11 + la + 1)%nat with (String.length ("PostgreSQL " ++ major ++ "."))
    by (rewrite !length_append; cbn [String.length]; lia).
  f_equal; [|f_equal; [|f_equal; [|f_equal; [|f_equal]]]].
  - etransitivity;
      [|apply (substring_prefix
                 ("PostgreSQL " ++ major ++ "." ++ minor ++ "." ++ patch ++ " ") rest)].
    f_equal. now rewrite !append_assoc.
  - apply (substring_middle "PostgreSQL " major).
  - etransitivity;
      [|apply (substring_middle ("PostgreSQL " ++ major ++ ".") minor
                 ("." ++ patch ++ " " ++ rest))].
    f_equal. now rewrite !append_assoc.
  - etransitivity;
      [|apply (substring_middle ("PostgreSQL " ++ major ++ "." ++ minor) ("." ++ patch)
                 (" " ++ rest))].
    f_equal. now rewrite !append_assoc.
  - etransitivity;
      [|apply (substring_middle ("PostgreSQL " ++ major ++ "." ++ minor ++ ".") patch
                 (" " ++ rest))].
    f_equal. now rewrite !append_assoc.
Qed.

End VersionStrings3.

(** *** [strconv.ParseUint] on numbers *)

Lemma is_digit_value (c : ascii) :
  is_digit c = true -> 0 <= Z.of_N (N_of_ascii c) - 48 <= 9.
Proof.
  unfold is_digit, byte_between. intros H.
  apply andb_prop in H as [H1 H2].
  apply N.leb_le in H1, H2.
  change (N_of_ascii "0") with 48%N in H1. change (N_of_ascii "9") with 57%N in H2.
  lia.
Qed.

Lemma decimal_ge (s : string) :
  forall n, all_bytes is_digit s = true -> 0 <= n -> n <= decimal n s.
Proof.
  induction s as [|c s IH]; intros n Hs Hn; cbn [decimal]; [lia|].
  cbn [all_bytes] in Hs. apply andb_prop in Hs as [Hc Hs].
  pose proof (is_digit_value c Hc) as Hd.
  specialize (IH (n * 10 + (Z.of_N (N_of_ascii c) - 48)) Hs). lia.
Qed.

(** No overflow test fires while the number read so far can still end
    below [maxVal]. *)
Lemma parseDigits_number (s0 : string) (maxVal : Z) (s : string) :
  maxVal <= maxUint64 ->
  forall n,
    all_bytes is_digit s = true -> 0 <= n -> decimal n s <= maxVal ->
    parseDigits s0 maxVal n s = (decimal n s, None).
Proof.
  intros Hmax. induction s as [|c s IH]; intros n Hs Hn Hval; [reflexivity|].
  cbn [all_bytes] in Hs. apply andb_prop in Hs as [Hc Hs].
  pose proof (is_digit_value c Hc) as Hd.
  cbn [parseDigits decimal] in *. rewrite Hc.
  set (d := Z.of_N (N_of_ascii c) - 48) in *.
  assert (Hn1 : n * 10 + d <= maxVal).
  { pose proof (decimal_ge s (n * 10 + d) Hs). lia. }
  unfold maxUint64 in Hmax.
  assert (Hcut : (cutoff <=? n) = false).
  { apply Z.leb_gt. unfold cutoff, maxUint64.
    change ((2 ^ 64 - 1) / 10 + 1) with 1844674407370955162. lia. }
  rewrite Hcut.
  assert (Hw1 : wrap64 (n * 10) = n * 10) by (apply Z.mod_small; lia).
  rewrite Hw1.
  assert (Hw2 : wrap64 (n * 10 + d) = n * 10 + d) by (apply Z.mod_small; lia).
  rewrite Hw2.
  replace (n * 10 + d <? n * 10) with false by (symmetry; apply Z.ltb_ge; lia).
  replace (maxVal <? n * 10 + d) with false by (symmetry; apply Z.ltb_ge; lia).
  cbn [orb]. apply IH; [assumption|lia|assumption].
Qed.

Lemma maxValOf_bits (bits : Z) : 0 <= bits <= 64 -> maxValOf bits = 2 ^ bits - 1.
Proof.
  intros Hb. unfold maxValOf, wrap64.
  assert (H0 : 0 < 2 ^ bits) by (apply Z.pow_pos_nonneg; lia).
  assert (Hle : 2 ^ bits <= 2 ^ 64) by (apply Z.pow_le_mono_r; lia).
  destruct (Z.eq_dec bits 64) as [->|Hne].
  - reflexivity.
  - assert (Hlt : 2 ^ bits < 2 ^ 64) by (apply Z.pow_lt_mono_r; lia).
    rewrite (Z.mod_small (2 ^ bits)) by lia. apply Z.mod_small. lia.
Qed.

(** A number that fits [uint] is parsed to its value. *)
Lemma ParseUint_number (IntSize : Z) (s : string) :
  0 <= IntSize <= 64 -> is_number s -> decimal 0 s < 2 ^ IntSize ->
  ParseUint IntSize s 0 = (decimal 0 s, None).
Proof.
  intros Hbits [Hne Hs] Hval. unfold ParseUint.
  destruct (String.eqb_spec s ""); [contradiction|].
  cbn [Z.eqb]. rewrite maxValOf_bits by assumption.
  apply parseDigits_number; try assumption; try lia.
  unfold maxUint64.
  assert (2 ^ IntSize <= 2 ^ 64) by (apply Z.pow_le_mono_r; lia). lia.
Qed.

(** *** The detector on well-formed version strings *)

(** A three-part version whose numbers fit [uint] is detected. *)
Lemma versionRowLoop_three_part (IntSize : Z) (major minor patch rest : string)
    (rows : list (scan string)) :
  0 <= IntSize <= 64 ->
  is_number major -> is_number minor -> is_number patch ->
  decimal 0 major < 2 ^ IntSize ->
  decimal 0 minor < 2 ^ IntSize ->
  decimal 0 patch < 2 ^ IntSize ->
  versionRowLoop IntSize
    (Scanned ("PostgreSQL " ++ major ++ "." ++ minor ++ "." ++ patch ++ " " ++ rest) :: rows) =
  ({| first := decimal 0 major; second := decimal 0 minor; thrird := decimal 0 patch |},
   None).
Proof.
  intros Hbits Ha Hb Hc Va Vb Vc. cbn [versionRowLoop].
  rewrite (versionRe_three_part major minor patch Ha Hb Hc rest).
  cbn [List.length Nat.leb]. unfold parseSubmatch.
  cbn [subscript nth List.length Nat.eqb].
  rewrite !ParseUint_number by assumption.
  unfold to_uint.
  assert (Hpos : forall s, is_number s -> 0 <= decimal 0 s).
  { intros s [_ Hs]. now apply decimal_ge. }
  rewrite !Z.mod_small by (split; [apply Hpos|]; assumption).
  reflexivity.
Qed.

(** A two-part version is rejected, whatever its numbers: the patch
    submatch is the empty string, which [ParseUint] does not accept. *)
Lemma versionRowLoop_two_part (IntSize : Z) (major minor rest : string)
    (rows : list (scan string)) :
  is_number major -> is_number minor ->
  is_Some (versionRowLoop IntSize
             (Scanned ("PostgreSQL " ++ major ++ "." ++ minor ++ " " ++ rest) :: rows)).2.
Proof.
  intros Ha Hb. cbn [versionRowLoop].
  rewrite (versionRe_two_part major minor Ha Hb rest).
  cbn [List.length Nat.leb]. apply parseSubmatch_patch_absent.
Qed.

(** C1, on a server that reports a two-part version: the pattern
    matches ["PostgreSQL 10.1 "] with the patch group unmatched, and
    [fetchVersion] fails with the syntax error of
    [strconv.ParseUint("", 10, 0)] instead of returning (10, 1, 0), on
    32-bit and on 64-bit platforms alike; the whole fetch cycle fails
    with it.  A three-part version is detected. *)
Theorem fetchVersion_two_part_version_fails :
  FindStringSubmatch versionRe pg10_version = ["PostgreSQL 10.1 "; "10"; "1"; ""; ""] /\
  result_of (fetchVersion 64 (example_db pg10_version)) =
    (version_zero, Some (NumError "ParseUint" "" ErrSyntax)) /\
  result_of (fetchVersion 32 (example_db pg10_version)) =
    (version_zero, Some (NumError "ParseUint" "" ErrSyntax)) /\
  result_of (FetchMetrics 64 (example_world (example_db pg10_version)) example_plugin) =
    (None, Some (NumError "ParseUint" "" ErrSyntax)) /\
  result_of (fetchVersion 64 (example_db pg96_version)) =
    ({| first := 9; second := 6; thrird := 3 |}, None).
Proof. repeat split; vm_compute; reflexivity. Qed.

(** ** Instances *)

Lemma example_stat_rows_uint64 : Forall uint64_row (scanned example_stat_rows).
Proof.
  repeat (constructor; [unfold uint64_row, is_uint64; cbn; repeat split; (lia || exact I)|]).
  constructor.
Qed.

Lemma fetchStatDatabase_sums_witness :
  exists m : metricMap,
    result_of (fetchStatDatabase (example_db pg96_version)) = (Some m, None) /\
    m !! "xact_commit" = Some (Uint64 35) /\
    m !! "deadlocks" = Some (Uint64 11) /\
    m !! "blk_read_time" = Some (Float64 4%float) /\
    m !! "temp_bytes" = None.
Proof.
  destruct (fetchStatDatabase_sums (example_db pg96_version) example_stat_rows
              eq_refl example_stat_rows_uint64)
    as (m & Hm & (H1 & _) & (H5 & _ & H12 & H13) & _).
  exists m. repeat split; assumption.
Defined.

Lemma fetchConnections_seeded_witness :
  exists m : metricMap,
    result_of (fetchConnections idle_db {| first := 9; second := 6; thrird := 3 |})
      = (Some m, None) /\
    m !! "active" = Some (Float64 0%float) /\
    m !! "idle_in_transaction_aborted" = Some (Float64 0%float).
Proof.
  destruct (fetchConnections_seeded idle_db {| first := 9; second := 6; thrird := 3 |} []
              eq_refl) as (m & Hm & _ & Hzero).
  exists m. split; [exact Hm|].
  split; apply (Hzero eq_refl); unfold seededKeys; repeat constructor.
Defined.



Lemma connection_keys_never_end_with_underscore_witness :
  exists m : metricMap,
    fst (result_of (fetchConnections (example_db pg96_version)
                      {| first := 9; second := 6; thrird := 3 |})) = Some m /\
    is_Some (m !! "idle_in_transaction_aborted") /\
    ~ ends_with_underscore "idle_in_transaction_aborted" /\
    "idle_in_transaction_aborted" <> "idle_in_transaction_aborted_".
Proof.
  destruct connection_keys_never_end_with_underscore as (_ & _ & Hkeys).
  exists (fold_left connRowStep example_activity_rows connectionsSeed).
  assert (Hm : fst (result_of (fetchConnections (example_db pg96_version)
                                 {| first := 9; second := 6; thrird := 3 |}))
               = Some (fold_left connRowStep example_activity_rows connectionsSeed))
    by reflexivity.
  assert (Hk : is_Some (fold_left connRowStep example_activity_rows connectionsSeed
                          !! "idle_in_transaction_aborted"))
    by (vm_compute; eauto).
  split; [exact Hm|]. split; [exact Hk|].
  exact (Hkeys _ _ _ _ Hm Hk).
Defined.

(* ===================================================================== *)
(** * Part III: further properties of the code                           *)
(* ===================================================================== *)

(** ** More on the State Normalizer *)

Lemma result_Some_inv {A E : Type} (x m : A) (e e' : option E) :
  (Some x, e) = (Some m, e') -> x = m.
Proof. intros H. now injection H. Qed.

Lemma all_bytes_app (p : ascii -> bool) (a b : string) :
  all_bytes p (a ++ b) = all_bytes p a && all_bytes p b.
Proof.
  induction a as [|c a IH]; simpl; [reflexivity|].
  now rewrite IH, andb_assoc.
Qed.

Lemma spec_collapse_key_bytes (s : string) :
  forall in_run, all_bytes is_key_byte (spec_collapse in_run s) = true.
Proof.
  induction s as [|c s IH]; intros in_run; cbn [spec_collapse]; [reflexivity|].
  destruct (is_key_byte c) eqn:Hc.
  - cbn [all_bytes]. now rewrite Hc, IH.
  - destruct in_run; [apply IH|]. cbn [all_bytes]. now rewrite IH.
Qed.

Lemma TrimRight_all_bytes (p : ascii -> bool) (s cutset : string) :
  all_bytes p s = true -> all_bytes p (TrimRight s cutset) = true.
Proof.
  induction s as [|c s IH]; [reflexivity|].
  cbn [all_bytes TrimRight]. intros H. apply andb_prop in H as [Hc Hs].
  specialize (IH Hs). destruct (TrimRight s cutset) as [|d t].
  - destruct (contains_byte cutset c); [reflexivity|]. cbn [all_bytes]. now rewrite Hc.
  - cbn [all_bytes] in *. now rewrite Hc, IH.
Qed.

(** A label made of key bytes has no run to collapse. *)
Lemma spec_collapse_clean (s : string) :
  all_bytes is_key_byte s = true -> spec_collapse false s = s.
Proof.
  induction s as [|c s IH]; [reflexivity|].
  cbn [all_bytes spec_collapse]. intros H. apply andb_prop in H as [Hc Hs].
  now rewrite Hc, IH.
Qed.

Lemma TrimRight_underscore_clean (s : string) :
  last_byte s <> Some "_"%char -> TrimRight s "_" = s.
Proof.
  induction s as [|c s IH]; [reflexivity|].
  intros Hlast. cbn [TrimRight]. destruct s as [|d s].
  - cbn [TrimRight contains_byte]. cbn [last_byte] in Hlast.
    destruct (Ascii.eqb_spec c "_") as [->|Hc]; [contradiction|reflexivity].
  - rewrite IH by exact Hlast. reflexivity.
Qed.

Lemma normalizeState_clean (s : string) (waiting : bool) :
  all_bytes is_key_byte s = true -> ~ ends_with_underscore s ->
  normalizeState s waiting = s ++ (if waiting then "_waiting" else "").
Proof.
  intros Hs Hend. rewrite normalizeState_unfold, spec_collapse_clean by exact Hs.
  rewrite TrimRight_underscore_clean; [reflexivity|].
  now rewrite <- ends_with_underscore_last.
Qed.

Lemma normalizeState_all_key_bytes (state : string) (waiting : bool) :
  all_bytes is_key_byte (normalizeState state waiting) = true.
Proof.
  rewrite normalizeState_unfold, all_bytes_app.
  rewrite TrimRight_all_bytes by apply spec_collapse_key_bytes.
  now destruct waiting.
Qed.

(** X1: every key that [fetchConnections] stores a row under consists
    of bytes of [A-Za-z0-9_-] only, whatever the state label contains, and
    so does every key of its result. *)
Theorem normalizeState_key_bytes (state : string) (waiting : bool) :
  all_bytes is_key_byte (normalizeState state waiting) = true /\
  (forall db v m k,
      result_of (fetchConnections db v) = (Some m, None) ->
      is_Some (m !! k) -> all_bytes is_key_byte k = true).
Proof.
  split; [apply normalizeState_all_key_bytes|].
  intros db v m k Hm Hk. rewrite fetchConnections_result in Hm.
  destruct (query_stat_activity db (connectionsQuery v)) as [rows|e]; [|discriminate].
  apply result_Some_inv in Hm. subst m.
  destruct (connRowLoop_keys _ _ _ Hk) as [H|(count & state' & waiting' & _ & ->)].
  - rewrite connectionsSeed_lookup in H. case_decide as Hin; [|now destruct H].
    unfold seededKeys in Hin.
    repeat (apply elem_of_cons in Hin as [->|Hin]; [reflexivity|]).
    now apply elem_of_nil in Hin.
  - apply normalizeState_all_key_bytes.
Qed.

(** X2: normalizing is idempotent: a key obtained without the waiting
    flag is left unchanged by a second normalization, and with the flag
    it only gets the suffix; in particular a label that is already a key
    (bytes of [A-Za-z0-9_-], no trailing underscore) is its own key. *)
Theorem normalizeState_idempotent (state : string) (waiting : bool) :
  normalizeState (normalizeState state false) waiting = normalizeState state waiting /\
  (forall label,
      all_bytes is_key_byte label = true -> ~ ends_with_underscore label ->
      normalizeState label false = label).
Proof.
  split.
  - rewrite normalizeState_clean.
    + rewrite (normalizeState_unfold state false), (normalizeState_unfold state waiting).
      now rewrite append_nil_r.
    + apply normalizeState_all_key_bytes.
    + rewrite ends_with_underscore_last. apply normalizeState_last.
  - intros label Hk Hend. rewrite normalizeState_clean by assumption.
    apply append_nil_r.
Qed.

Lemma normalizeState_idempotent_witness :
  normalizeState "fastpath_function_call" false = "fastpath_function_call".
Proof.
  destruct (normalizeState_idempotent "" false) as [_ Hclean].
  apply Hclean; [reflexivity|].
  rewrite ends_with_underscore_last. discriminate.
Defined.

(** ** More on the connection-state aggregator *)

Lemma fold_left_app_conn (pre post : list (scan (float * string * bool))) (m : metricMap) :
  fold_left connRowStep (pre ++ post)%list m =
  fold_left connRowStep post (fold_left connRowStep pre m).
Proof. apply fold_left_app. Qed.

(** X3: a row's count overwrites what the key held (it is not added):
    after the loop a key holds the count of the last scanned row stored
    under it, also when two different labels share that key. *)
Theorem fetchConnections_last_row_wins (db : DB) (v : version)
    (pre post : list (scan (float * string * bool)))
    (count : float) (state : string) (waiting : bool) :
  query_stat_activity db (connectionsQuery v) =
    QueryOk (pre ++ Scanned (count, state, waiting) :: post)%list ->
  (forall row, Scanned row ∈ post -> rowKey row <> normalizeState state waiting) ->
  exists m : metricMap,
    result_of (fetchConnections db v) = (Some m, None) /\
    m !! normalizeState state waiting = Some (Float64 count).
Proof.
  intros Hq Hpost. rewrite fetchConnections_result, Hq.
  eexists. split; [reflexivity|].
  rewrite fold_left_app_conn. cbn [fold_left connRowStep].
  rewrite connRowLoop_untouched.
  - apply lookup_insert_eq.
  - intros c s w Hin. apply (Hpost (c, s, w) Hin).
Qed.

Lemma fetchConnections_last_row_wins_witness :
  exists m : metricMap,
    result_of (fetchConnections colliding_db {| first := 9; second := 6; thrird := 3 |}) =
      (Some m, None) /\
    m !! "idle_in_transaction" = Some (Float64 9%float).
Proof.
  apply (fetchConnections_last_row_wins colliding_db {| first := 9; second := 6; thrird := 3 |}
           [Scanned (4%float, "idle in transaction", false)]
           [Scanned (1%float, "active", false)] 9%float "idle_in_transaction" false eq_refl).
  intros row Hin. apply elem_of_cons in Hin as [Hin|Hin]; [|now apply elem_of_nil in Hin]. injection Hin as ->.
  vm_compute. discriminate.
Defined.

Lemma connRowLoop_row_key (rows : list (scan (float * string * bool))) :
  forall (m : metricMap) (row : float * string * bool),
    Scanned row ∈ rows -> is_Some (fold_left connRowStep rows m !! rowKey row).
Proof.
  induction rows as [|r rows IH]; intros m row Hin.
  - now apply elem_of_nil in Hin.
  - cbn [fold_left]. apply elem_of_cons in Hin as [<-|Hin].
    + apply connRowLoop_keeps. destruct row as [[count state] waiting].
      cbn [connRowStep]. unfold rowKey. cbn [fst snd]. rewrite lookup_insert_eq. eauto.
    + now apply IH.
Qed.

(** X4: the keys of a successful result are exactly the five seeded
    keys and the keys of the rows that scanned: nothing else is added and
    no row that scanned is dropped. *)
Theorem fetchConnections_key_set (db : DB) (v : version)
    (rows : list (scan (float * string * bool))) :
  query_stat_activity db (connectionsQuery v) = QueryOk rows ->
  exists m : metricMap,
    result_of (fetchConnections db v) = (Some m, None) /\
    forall k, is_Some (m !! k) <->
              k ∈ seededKeys \/ exists row, Scanned row ∈ rows /\ k = rowKey row.
Proof.
  intros Hq. rewrite fetchConnections_result, Hq.
  eexists. split; [reflexivity|]. intros k. split.
  - intros Hk. destruct (connRowLoop_keys _ _ _ Hk) as [H|(c & s & w & Hin & ->)].
    + left. rewrite connectionsSeed_lookup in H.
      case_decide; [assumption|now destruct H].
    + right. now exists (c, s, w).
  - intros [Hk|(row & Hin & ->)].
    + apply connRowLoop_keeps. rewrite connectionsSeed_lookup, decide_True by exact Hk. eauto.
    + now apply connRowLoop_row_key.
Qed.

Lemma fetchConnections_key_set_witness :
  exists m : metricMap,
    result_of (fetchConnections (example_db pg96_version)
                 {| first := 9; second := 6; thrird := 3 |}) = (Some m, None) /\
    (is_Some (m !! "disabled") <->
     "disabled" ∈ seededKeys \/
     exists row, Scanned row ∈ example_activity_rows /\ "disabled" = rowKey row).
Proof.
  destruct (fetchConnections_key_set (example_db pg96_version)
              {| first := 9; second := 6; thrird := 3 |} example_activity_rows eq_refl)
    as (m & Hm & Hkeys).
  exists m. split; [exact Hm | apply Hkeys].
Defined.

(** ** More on the size aggregator *)

Lemma sizeRowLoop_scanned (rows : list (scan float)) :
  forall acc, fold_left sizeRowStep rows acc = fold_left PrimFloat.add (scanned rows) acc.
Proof.
  induction rows as [|[x|e] rows IH]; intros acc; cbn [fold_left scanned sizeRowStep];
    [reflexivity| apply IH | apply IH].
Qed.

(** X5: whenever its query succeeds the size aggregator returns a map
    with the single key [total_size], also when there is no row or no row
    scans; its value is the sizes that scanned, added to 0.0 in order. *)
Theorem fetchDatabaseSize_single_key (db : DB) (rows : list (scan float)) :
  query_database_size db query_size = QueryOk rows ->
  exists m : metricMap,
    result_of (fetchDatabaseSize db) = (Some m, None) /\
    forall k, m !! k =
              if decide (k = "total_size")
              then Some (Float64 (fold_left PrimFloat.add (scanned rows) 0%float))
              else None.
Proof.
  intros Hq. rewrite fetchDatabaseSize_result, Hq.
  eexists. split; [reflexivity|]. intros k.
  rewrite sizeRowLoop_scanned. case_decide as Hk.
  - subst k. apply lookup_insert_eq.
  - rewrite lookup_insert_ne by congruence. apply lookup_empty.
Qed.

Lemma fetchDatabaseSize_single_key_witness :
  exists m : metricMap,
    result_of (fetchDatabaseSize idle_db) = (Some m, None) /\
    m !! "total_size" = Some (Float64 0%float).
Proof.
  destruct (fetchDatabaseSize_single_key idle_db [] eq_refl) as (m & Hm & Hk).
  exists m. split; [exact Hm | apply (Hk "total_size")].
Defined.

(** ** More on the Version Detector *)

Lemma fetchVersion_result (IntSize : Z) (db : DB) :
  result_of (fetchVersion IntSize db) =
  match query_version db "select version()" with
  | QueryErr err => (version_zero, Some err)
  | QueryOk rows => versionRowLoop IntSize rows
  end.
Proof.
  unfold fetchVersion, result_of, Query, io_bind.
  destruct (query_version db "select version()"); reflexivity.
Qed.

Lemma versionRowLoop_skip (IntSize : Z) (pre rows : list (scan string)) :
  Forall unmatched_row pre ->
  versionRowLoop IntSize (pre ++ rows) = versionRowLoop IntSize rows.
Proof.
  induction 1 as [|r pre (s & -> & Hs) _ IH]; [reflexivity|].
  cbn [app versionRowLoop]. rewrite Hs. exact IH.
Qed.

(** Once a digit makes the number exceed [maxVal], one of the overflow
    tests fires, at that digit or at a later one. *)
Lemma parseDigits_overflow (s0 : string) (maxVal : Z) (s : string) :
  maxVal <= maxUint64 ->
  forall n,
    all_bytes is_digit s = true -> 0 <= n <= maxVal -> maxVal < decimal n s ->
    parseDigits s0 maxVal n s = (maxVal, Some (rangeError "ParseUint" s0)).
Proof.
  intros Hmax. induction s as [|c s IH]; intros n Hs Hn Hval.
  - cbn [decimal] in Hval. lia.
  - cbn [all_bytes] in Hs. apply andb_prop in Hs as [Hc Hs].
    pose proof (is_digit_value c Hc) as Hd.
    cbn [parseDigits decimal] in *. rewrite Hc.
    set (d := Z.of_N (N_of_ascii c) - 48) in *.
    destruct (cutoff <=? n) eqn:Hcut; [reflexivity|].
    apply Z.leb_gt in Hcut. unfold cutoff, maxUint64 in Hcut, Hmax.
    change ((2 ^ 64 - 1) / 10 + 1) with 1844674407370955162 in Hcut.
    assert (Hw1 : wrap64 (n * 10) = n * 10) by (apply Z.mod_small; lia).
    rewrite Hw1.
    destruct (Z_lt_dec (n * 10 + d) (2 ^ 64)) as [Hsmall|Hbig].
    + assert (Hw2 : wrap64 (n * 10 + d) = n * 10 + d) by (apply Z.mod_small; lia).
      rewrite Hw2.
      replace (n * 10 + d <? n * 10) with false by (symmetry; apply Z.ltb_ge; lia).
      cbn [orb]. destruct (maxVal <? n * 10 + d) eqn:Hover; [reflexivity|].
      apply Z.ltb_ge in Hover. apply IH; [assumption|lia|assumption].
    + assert (Hw2 : wrap64 (n * 10 + d) = n * 10 + d - 2 ^ 64).
      { unfold wrap64. symmetry. apply (Z.mod_unique _ _ 1); lia. }
      rewrite Hw2.
      replace (n * 10 + d - 2 ^ 64 <? n * 10) with true by (symmetry; apply Z.ltb_lt; lia).
      reflexivity.
Qed.

(** [strconv.ParseUint(s, 10, 0)] on a number: its value when it fits
    [uint], a range error otherwise. *)
Lemma ParseUint_fits (IntSize : Z) (s : string) :
  0 <= IntSize <= 64 -> is_number s ->
  ParseUint IntSize s 0 =
  if fits IntSize s then (decimal 0 s, None)
  else (2 ^ IntSize - 1, Some (rangeError "ParseUint" s)).
Proof.
  intros Hbits Hs. unfold fits. destruct (Z.ltb_spec (decimal 0 s) (2 ^ IntSize)) as [Hlt|Hge].
  - now apply ParseUint_number.
  - destruct Hs as [Hne Hs]. unfold ParseUint.
    destruct (String.eqb_spec s ""); [contradiction|].
    cbn [Z.eqb]. rewrite maxValOf_bits by assumption.
    assert (0 < 2 ^ IntSize) by (apply Z.pow_pos_nonneg; lia).
    assert (2 ^ IntSize <= 2 ^ 64) by (apply Z.pow_le_mono_r; lia).
    apply parseDigits_overflow; try assumption; unfold maxUint64; lia.
Qed.

Lemma decimal_nonneg (s : string) : is_number s -> 0 <= decimal 0 s.
Proof. intros [_ Hs]. now apply decimal_ge. Qed.

(** X6: rows the pattern does not match are passed over, and the first
    row that reads ["PostgreSQL major.minor.patch ..."] decides, whatever
    follows it: the three numbers are returned when each fits [uint], and
    otherwise the range error of the first one that does not. *)
Theorem fetchVersion_three_part (IntSize : Z) (db : DB)
    (pre post : list (scan string)) (major minor patch rest : string) :
  0 <= IntSize <= 64 ->
  is_number major -> is_number minor -> is_number patch ->
  Forall unmatched_row pre ->
  query_version db "select version()" =
    QueryOk (pre ++
             Scanned ("PostgreSQL " ++ major ++ "." ++ minor ++ "." ++ patch ++ " " ++ rest)%string
             :: post)%list ->
  result_of (fetchVersion IntSize db) = three_part_result IntSize major minor patch.
Proof.
  intros Hbits Ha Hb Hc Hpre Hq.
  rewrite fetchVersion_result, Hq, versionRowLoop_skip by exact Hpre.
  cbn [versionRowLoop].
  rewrite (versionRe_three_part major minor patch Ha Hb Hc rest).
  cbn [List.length Nat.leb]. unfold parseSubmatch, three_part_result.
  cbn [subscript nth List.length Nat.eqb].
  rewrite !ParseUint_fits by assumption.
  destruct (fits IntSize major) eqn:Fa; [|reflexivity].
  destruct (fits IntSize minor) eqn:Fb; [|reflexivity].
  destruct (fits IntSize patch) eqn:Fc; [|reflexivity].
  cbn [negb]. unfold fits in *. apply Z.ltb_lt in Fa, Fb, Fc.
  unfold to_uint.
  rewrite !Z.mod_small by (split; [apply decimal_nonneg|]; assumption).
  reflexivity.
Qed.

Lemma fetchVersion_three_part_witness :
  result_of (fetchVersion 32 (banner_db "PostgreSQL 9.4294967296.3 on x86_64")) =
    (version_zero, Some (NumError "ParseUint" "4294967296" ErrRange)) /\
  result_of (fetchVersion 64 (banner_db "PostgreSQL 9.4294967296.3 on x86_64")) =
    ({| first := 9; second := 4294967296; thrird := 3 |}, None).
Proof.
  assert (Hpre : Forall unmatched_row [Scanned "EnterpriseDB build"]).
  { repeat constructor. eexists. split; reflexivity. }
  assert (Hn : forall s, s <> "" -> all_bytes is_digit s = true -> is_number s)
    by (intros s H1 H2; split; assumption).
  split.
  - apply (fetchVersion_three_part 32 (banner_db "PostgreSQL 9.4294967296.3 on x86_64")
             [Scanned "EnterpriseDB build"] [Scanned "PostgreSQL 1.2.3 "]
             "9" "4294967296" "3" "on x86_64");
      [lia | apply Hn; [discriminate|reflexivity] .. | exact Hpre | reflexivity].
  - apply (fetchVersion_three_part 64 (banner_db "PostgreSQL 9.4294967296.3 on x86_64")
             [Scanned "EnterpriseDB build"] [Scanned "PostgreSQL 1.2.3 "]
             "9" "4294967296" "3" "on x86_64");
      [lia | apply Hn; [discriminate|reflexivity] .. | exact Hpre | reflexivity].
Defined.

(** *** The number of submatches *)

Lemma plusLoop_keeps (n : nat) (body : string -> nat -> captures -> cont -> option captures)
    (k : cont) :
  (forall k', keeps n k' -> keeps n (fun s pos caps => body s pos caps k')) ->
  keeps n k ->
  forall fuel, keeps n (plusLoop body k fuel).
Proof.
  intros Hbody Hk. induction fuel as [|fuel IH]; intros s pos caps caps' Hl H.
  - discriminate.
  - cbn [plusLoop] in H. revert H. apply Hbody; [|exact Hl].
    intros s' pos' c c' Hl' H'. unfold orElse in H'.
    destruct (pos <? pos')%nat.
    + destruct (plusLoop body k fuel s' pos' c) as [c0|] eqn:E.
      * injection H' as <-. exact (IH _ _ _ _ Hl' E).
      * exact (Hk _ _ _ _ Hl' H').
    + exact (Hk _ _ _ _ Hl' H').
Qed.

Lemma exec_keeps (n : nat) (r : regexp) :
  forall k, keeps n k -> keeps n (fun s pos caps => exec r s pos caps k).
Proof.
  induction r as [|c|p|r1 IH1 r2 IH2|r1 IH1|r1 IH1|i r1 IH1]; intros k Hk s pos caps caps' Hl H.
  - exact (Hk _ _ _ _ Hl H).
  - cbn [exec] in H. destruct s as [|c' s']; [discriminate|].
    destruct (Ascii.eqb c c'); [exact (Hk _ _ _ _ Hl H)|discriminate].
  - cbn [exec] in H. destruct s as [|c' s']; [discriminate|].
    destruct (p c'); [exact (Hk _ _ _ _ Hl H)|discriminate].
  - rewrite exec_Cat in H. revert H. apply IH1; [|exact Hl]. now apply IH2.
  - rewrite exec_Plus in H. revert H. apply plusLoop_keeps; assumption.
  - rewrite exec_Quest in H. unfold orElse in H.
    destruct (exec r1 s pos caps k) as [c0|] eqn:E.
    + injection H as <-. exact (IH1 k Hk _ _ _ _ Hl E).
    + exact (Hk _ _ _ _ Hl H).
  - rewrite exec_Group in H. revert H. apply IH1; [|exact Hl].
    intros s' pos' c c' Hl' H'. eapply Hk; [|exact H'].
    exact (eq_trans (length_insert c i _) Hl').
Qed.

Lemma findFrom_length (re : regexp) (s : string) :
  forall pos caps, findFrom re s pos = Some caps -> List.length caps = S (NumSubexp re).
Proof.
  assert (Hm : forall s pos caps,
             matchAt re s pos = Some caps -> List.length caps = S (NumSubexp re)).
  { intros s0 pos caps. unfold matchAt. apply (exec_keeps (S (NumSubexp re)) re).
    - intros s' pos' c c' Hl H. injection H as <-.
      exact (eq_trans (length_insert c 0%nat _) Hl).
    - apply length_replicate. }
  induction s as [|c s IH]; intros pos caps; cbn [findFrom].
  - destruct (matchAt re "" pos) as [c0|] eqn:E; [|discriminate].
    intros [= <-]. exact (Hm _ _ _ E).
  - destruct (matchAt re (String c s) pos) as [c0|] eqn:E.
    + intros [= <-]. exact (Hm _ _ _ E).
    + apply IH.
Qed.

(** [FindStringSubmatch] returns [nil] or one string for the match and
    one for each group. *)
Lemma FindStringSubmatch_length (re : regexp) (s : string) :
  List.length (FindStringSubmatch re s) = 0%nat \/
  List.length (FindStringSubmatch re s) = S (NumSubexp re).
Proof.
  unfold FindStringSubmatch. destruct (findFrom re s 0) as [caps|] eqn:E.
  - right. rewrite length_map. exact (findFrom_length _ _ _ _ E).
  - now left.
Qed.

Lemma parseSubmatch_error_zero (IntSize : Z) (submatch : list string) :
  is_Some (parseSubmatch IntSize submatch).2 ->
  (parseSubmatch IntSize submatch).1 = version_zero.
Proof.
  unfold parseSubmatch.
  destruct (ParseUint IntSize (subscript submatch 1) 0) as [n1 [e1|]]; [reflexivity|].
  destruct (ParseUint IntSize (subscript submatch 2) 0) as [n2 [e2|]]; [reflexivity|].
  destruct (if (List.length submatch =? 5)%nat
            then ParseUint IntSize (subscript submatch 4) 0
            else (0, None)) as [n3 [e3|]]; [reflexivity|].
  cbn. intros [x Hx]. discriminate.
Qed.

Lemma parseSubmatch_success (IntSize : Z) (submatch : list string) (v : version) :
  List.length submatch = 5%nat ->
  parseSubmatch IntSize submatch = (v, None) ->
  exists n1 n2 n3,
    ParseUint IntSize (subscript submatch 1) 0 = (n1, None) /\
    ParseUint IntSize (subscript submatch 2) 0 = (n2, None) /\
    ParseUint IntSize (subscript submatch 4) 0 = (n3, None) /\
    v = {| first := to_uint IntSize n1; second := to_uint IntSize n2;
           thrird := to_uint IntSize n3 |}.
Proof.
  intros Hlen. unfold parseSubmatch. rewrite Hlen. cbn [Nat.eqb].
  destruct (ParseUint IntSize (subscript submatch 1) 0) as [n1 [e1|]]; [discriminate|].
  destruct (ParseUint IntSize (subscript submatch 2) 0) as [n2 [e2|]]; [discriminate|].
  destruct (ParseUint IntSize (subscript submatch 4) 0) as [n3 [e3|]]; [discriminate|].
  intros [= <-]. now exists n1, n2, n3.
Qed.

(** X7: the test [len(submatch) == 5] never fails where it stands, so
    the patch number is always parsed: a version is returned only if some
    row matched with a non-empty patch submatch that [ParseUint] accepts,
    and its three numbers are those of that row. *)
Theorem fetchVersion_success_has_patch (IntSize : Z) (db : DB) (v : version) :
  result_of (fetchVersion IntSize db) = (v, None) ->
  exists rows versionStr n1 n2 n3,
    query_version db "select version()" = QueryOk rows /\
    Scanned versionStr ∈ rows /\
    let submatch := FindStringSubmatch versionRe versionStr in
    List.length submatch = 5%nat /\
    subscript submatch 4 <> "" /\
    ParseUint IntSize (subscript submatch 1) 0 = (n1, None) /\
    ParseUint IntSize (subscript submatch 2) 0 = (n2, None) /\
    ParseUint IntSize (subscript submatch 4) 0 = (n3, None) /\
    v = {| first := to_uint IntSize n1; second := to_uint IntSize n2;
           thrird := to_uint IntSize n3 |}.
Proof.
  rewrite fetchVersion_result.
  destruct (query_version db "select version()") as [rows|e]; [|discriminate].
  intros H.
  assert (Hrow : exists versionStr n1 n2 n3,
             Scanned versionStr ∈ rows /\
             let submatch := FindStringSubmatch versionRe versionStr in
             List.length submatch = 5%nat /\
             subscript submatch 4 <> "" /\
             ParseUint IntSize (subscript submatch 1) 0 = (n1, None) /\
             ParseUint IntSize (subscript submatch 2) 0 = (n2, None) /\
             ParseUint IntSize (subscript submatch 4) 0 = (n3, None) /\
             v = {| first := to_uint IntSize n1; second := to_uint IntSize n2;
                    thrird := to_uint IntSize n3 |}).
  { induction rows as [|[versionStr|e] rows IH]; cbn [versionRowLoop] in H;
      [discriminate| |discriminate].
    destruct (4 <=? List.length (FindStringSubmatch versionRe versionStr))%nat eqn:Hge.
    - assert (Hlen : List.length (FindStringSubmatch versionRe versionStr) = 5%nat).
      { destruct (FindStringSubmatch_length versionRe versionStr) as [H0|H5].
        - rewrite H0 in Hge. discriminate.
        - exact H5. }
      destruct (parseSubmatch_success _ _ _ Hlen H) as (n1 & n2 & n3 & P1 & P2 & P3 & ->).
      exists versionStr, n1, n2, n3. split; [left|]. cbv zeta.
      repeat split; try assumption.
      intros Hempty. rewrite Hempty, ParseUint_empty in P3. discriminate.
    - destruct (IH H) as (s & n1 & n2 & n3 & Hin & Hrest).
      exists s, n1, n2, n3. split; [now right | exact Hrest]. }
  destruct Hrow as (s & n1 & n2 & n3 & Hin & Hrest).
  exists rows, s, n1, n2, n3. split; [reflexivity|]. split; assumption.
Qed.

Lemma fetchVersion_success_has_patch_witness :
  exists rows versionStr n1 n2 n3,
    query_version (example_db pg96_version) "select version()" = QueryOk rows /\
    Scanned versionStr ∈ rows /\
    let submatch := FindStringSubmatch versionRe versionStr in
    List.length submatch = 5%nat /\
    subscript submatch 4 <> "" /\
    ParseUint 64 (subscript submatch 1) 0 = (n1, None) /\
    ParseUint 64 (subscript submatch 2) 0 = (n2, None) /\
    ParseUint 64 (subscript submatch 4) 0 = (n3, None) /\
    {| first := 9; second := 6; thrird := 3 |} =
    {| first := to_uint 64 n1; second := to_uint 64 n2; thrird := to_uint 64 n3 |}.
Proof.
  apply (fetchVersion_success_has_patch 64 (example_db pg96_version)). reflexivity.
Defined.




Lemma versionRowLoop_error_zero (IntSize : Z) (rows : list (scan string)) :
  is_Some (versionRowLoop IntSize rows).2 ->
  (versionRowLoop IntSize rows).1 = version_zero.
Proof.
  induction rows as [|[versionStr|e] rows IH]; cbn [versionRowLoop]; [reflexivity| |reflexivity].
  destruct (4 <=? List.length (FindStringSubmatch versionRe versionStr))%nat; [|exact IH].
  apply parseSubmatch_error_zero.
Qed.

(** X9: how [fetchVersion] fails.  The error of the query and the error
    of a row's scan are returned as they are (a scan error ends the loop,
    unlike in the aggregators); when every row scans and none matches,
    also when there is no row, the error is
    ["failed to select version()"].  With any error the version returned
    is the zero version. *)
Theorem fetchVersion_errors (IntSize : Z) (db : DB) :
  (forall err,
      query_version db "select version()" = QueryErr err ->
      result_of (fetchVersion IntSize db) = (version_zero, Some err)) /\
  (forall pre post err,
      Forall unmatched_row pre ->
      query_version db "select version()" = QueryOk (pre ++ ScanFailed err :: post)%list ->
      result_of (fetchVersion IntSize db) = (version_zero, Some err)) /\
  (forall rows,
      Forall unmatched_row rows ->
      query_version db "select version()" = QueryOk rows ->
      result_of (fetchVersion IntSize db) =
        (version_zero, Some (ErrorString "failed to select version()"))) /\
  (is_Some (result_of (fetchVersion IntSize db)).2 ->
   (result_of (fetchVersion IntSize db)).1 = version_zero).
Proof.
  rewrite fetchVersion_result. repeat split.
  - intros err ->. reflexivity.
  - intros pre post err Hpre ->. now rewrite versionRowLoop_skip.
  - intros rows Hrows ->. rewrite <- (app_nil_r rows). now rewrite versionRowLoop_skip.
  - destruct (query_version db "select version()"); [|reflexivity].
    apply versionRowLoop_error_zero.
Qed.

(** ** More on the fetch cycle *)

Lemma result_Connect (w : World) (driver dsn : string) :
  result_of (Connect w driver dsn) = sqlx_Connect w driver dsn.
Proof. reflexivity. Qed.

(** A successful fetch cycle, taken apart. *)
Lemma FetchMetrics_success_inv (IntSize : Z) (w : World) (p : PostgresPlugin) (m : metricMap) :
  result_of (FetchMetrics IntSize w p) = (Some m, None) ->
  exists db v r1 r2 r3,
    sqlx_Connect w "postgres" (dataSourceName p) = inl db /\
    result_of (fetchVersion IntSize db) = (v, None) /\
    query_stat_database db query_stat = QueryOk r1 /\
    query_stat_activity db (connectionsQuery v) = QueryOk r2 /\
    query_database_size db query_size = QueryOk r3 /\
    m = mergeStat
          (mergeStat
             (mergeStat ∅ (statOfTotal (statRowLoop r1).1 (statRowLoop r1).2))
             (fold_left connRowStep r2 connectionsSeed))
          (<["total_size" := Float64 (fold_left sizeRowStep r3 0%float)]> ∅).
Proof.
  unfold FetchMetrics. rewrite result_bind, result_Connect.
  destruct (sqlx_Connect w "postgres" (dataSourceName p)) as [db|e]; [|discriminate].
  rewrite result_defer, result_bind.
  destruct (result_of (fetchVersion IntSize db)) as [v [e|]] eqn:Ev; [discriminate|].
  rewrite result_bind, fetchStatDatabase_result.
  destruct (query_stat_database db query_stat) as [r1|e1] eqn:E1; [|discriminate].
  rewrite result_bind, fetchConnections_result.
  destruct (query_stat_activity db (connectionsQuery v)) as [r2|e2] eqn:E2; [|discriminate].
  rewrite result_bind, fetchDatabaseSize_result.
  destruct (query_database_size db query_size) as [r3|e3] eqn:E3; [|discriminate].
  intros H. cbn [result_of fst io_ret] in H. apply result_Some_inv in H. subst m.
  exists db, v, r1, r2, r3. repeat split; assumption.
Qed.

Lemma statOfTotal_keys (t : pgStat) (h : heap) (k : string) :
  is_Some (statOfTotal t h !! k) -> k ∈ (counterKeys ++ optionalKeys)%list.
Proof.
  intros Hk. destruct (decide (k ∈ (counterKeys ++ optionalKeys)%list)) as [|Hout]; [assumption|].
  exfalso. revert Hk.
  unfold statOfTotal, set_float_if_present, set_uint_if_present.
  destruct (BlkReadTime t), (BlkWriteTime t), (Deadlocks t), (TempBytes t);
    repeat (rewrite lookup_insert_ne; [|intros <-; apply Hout; vm_compute; repeat constructor]);
    rewrite lookup_empty; intros [x Hx]; discriminate.
Qed.

Lemma statOfTotal_counters (t : pgStat) (h : heap) (k : string) :
  k ∈ counterKeys -> exists n, statOfTotal t h !! k = Some (Uint64 n).
Proof.
  intros Hin. destruct (statOfTotal_lookup t h)
    as (L1 & L2 & L3 & L4 & _ & _ & L7 & L8 & L9 & L10 & L11 & _).
  unfold counterKeys in Hin.
  repeat (apply elem_of_cons in Hin as [->|Hin]; [eauto|]).
  now apply elem_of_nil in Hin.
Qed.

Lemma key_bytes_of_names (names : list string) (k : string) :
  forallb (fun s => all_bytes is_key_byte s && negb (bool_decide (last_byte s = Some "_"%char)))
          names = true ->
  k ∈ names -> all_bytes is_key_byte k = true /\ ~ ends_with_underscore k.
Proof.
  intros Hall Hin. rewrite forallb_forall in Hall.
  apply list_elem_of_In, Hall, andb_prop in Hin as [H1 H2].
  split; [exact H1|]. rewrite ends_with_underscore_last.
  apply negb_true_iff, bool_decide_eq_false in H2. exact H2.
Qed.

(** X10: what a successful fetch cycle returns.  The nine counters,
    the five seeded connection states and [total_size] are always there;
    [total_size] and the seeded states are [float64] values; and every
    key, whatever the server's state labels, consists of bytes of
    [A-Za-z0-9_-] and does not end with an underscore. *)
Theorem FetchMetrics_result_keys (IntSize : Z) (w : World) (p : PostgresPlugin)
    (m : metricMap) :
  result_of (FetchMetrics IntSize w p) = (Some m, None) ->
  (forall k, k ∈ (counterKeys ++ seededKeys ++ ["total_size"])%list -> is_Some (m !! k)) /\
  (forall k, k ∈ ("total_size" :: seededKeys) -> exists x, m !! k = Some (Float64 x)) /\
  (forall k, is_Some (m !! k) ->
             all_bytes is_key_byte k = true /\ ~ ends_with_underscore k).
Proof.
  intros Hm.
  destruct (FetchMetrics_success_inv _ _ _ _ Hm)
    as (db & v & r1 & r2 & r3 & _ & _ & _ & _ & _ & ->).
  set (a := statOfTotal _ _). set (b := fold_left connRowStep r2 connectionsSeed).
  set (x := fold_left sizeRowStep r3 0%float).
  assert (Hlookup : forall k,
             mergeStat (mergeStat (mergeStat ∅ a) b) (<["total_size" := Float64 x]> ∅) !! k =
             if decide (k = "total_size") then Some (Float64 x)
             else match b !! k with Some y => Some y | None => a !! k end).
  { intros k. rewrite !mergeStat_lookup, lookup_empty. case_decide as Hk.
    - subst k. now rewrite lookup_insert_eq.
    - rewrite lookup_insert_ne, lookup_empty by congruence.
      destruct (b !! k), (a !! k); reflexivity. }
  assert (Hseed : forall k, k ∈ seededKeys -> exists y, b !! k = Some (Float64 y)).
  { intros k Hk. subst b. clear Hlookup.
    assert (Hinv : forall rows (m0 : metricMap),
               (exists y, m0 !! k = Some (Float64 y)) ->
               exists y, fold_left connRowStep rows m0 !! k = Some (Float64 y)).
    { induction rows as [|[[[count state] waiting]|e] rows IH]; intros m0 H0;
        cbn [fold_left connRowStep]; [exact H0| |now apply IH].
      apply IH. destruct (decide (normalizeState state waiting = k)) as [->|Hne].
      - rewrite lookup_insert_eq. eauto.
      - now rewrite lookup_insert_ne. }
    apply Hinv. rewrite connectionsSeed_lookup, decide_True by exact Hk. eauto. }
  split; [|split].
  - intros k Hk. rewrite Hlookup. case_decide; [eauto|].
    apply elem_of_app in Hk as [Hk|Hk].
    + destruct (statOfTotal_counters (statRowLoop r1).1 (statRowLoop r1).2 k Hk) as [n Hn].
      fold a in Hn. rewrite Hn. destruct (b !! k); eauto.
    + apply elem_of_app in Hk as [Hk|Hk].
      * destruct (Hseed k Hk) as [y ->]. eauto.
      * apply elem_of_cons in Hk as [->|Hk]; [congruence|now apply elem_of_nil in Hk].
  - intros k Hk. rewrite Hlookup. case_decide; [eauto|].
    apply elem_of_cons in Hk as [->|Hk]; [congruence|].
    destruct (Hseed k Hk) as [y ->]. eauto.
  - intros k Hk. rewrite Hlookup in Hk. case_decide as Hts.
    + subst k. split; [reflexivity|]. rewrite ends_with_underscore_last. discriminate.
    + destruct (b !! k) as [y|] eqn:Eb.
      * assert (Hb : is_Some (fold_left connRowStep r2 connectionsSeed !! k)) by (fold b; eauto).
        destruct (connRowLoop_keys _ _ _ Hb) as [H|(count & state & waiting & _ & ->)].
        -- rewrite connectionsSeed_lookup in H. case_decide as Hin; [|now destruct H].
           now apply (key_bytes_of_names seededKeys).
        -- split; [apply normalizeState_all_key_bytes|].
           rewrite ends_with_underscore_last. apply normalizeState_last.
      * apply statOfTotal_keys in Hk.
        now apply (key_bytes_of_names (counterKeys ++ optionalKeys)).
Qed.

Lemma FetchMetrics_result_keys_witness :
  exists m : metricMap,
    result_of (FetchMetrics 64 (example_world (example_db pg96_version)) example_plugin) =
      (Some m, None) /\
    (forall k, k ∈ (counterKeys ++ seededKeys ++ ["total_size"])%list -> is_Some (m !! k)) /\
    (forall k, k ∈ ("total_size" :: seededKeys) -> exists x, m !! k = Some (Float64 x)) /\
    (forall k, is_Some (m !! k) ->
               all_bytes is_key_byte k = true /\ ~ ends_with_underscore k).
Proof.
  exists (default ∅
            (result_of (FetchMetrics 64 (example_world (example_db pg96_version))
                          example_plugin)).1).
  assert (Hm : result_of (FetchMetrics 64 (example_world (example_db pg96_version))
                            example_plugin) =
               (Some (default ∅
                        (result_of (FetchMetrics 64 (example_world (example_db pg96_version))
                                      example_plugin)).1), None))
    by (vm_compute; reflexivity).
  split; [exact Hm|].
  exact (FetchMetrics_result_keys 64 _ example_plugin _ Hm).
Defined.


(** ** The graph definition and the metrics *)

Lemma declares_intro (Title : string -> string) (p : PostgresPlugin)
    (key : string) (g : Graphs) (name : string) (diff : bool) :
  GraphDefinition Title p !! key = Some g ->
  existsb (fun mt => String.eqb (Name mt) name && Bool.eqb (Diff mt) diff) (GMetrics g) = true ->
  declares (GraphDefinition Title p) name diff.
Proof.
  intros Hg Hex. apply existsb_exists in Hex as (mt & Hin & Hmt).
  apply andb_prop in Hmt as [Hn Hd].
  apply String.eqb_eq in Hn. apply Bool.eqb_prop in Hd.
  exists key, g, mt. repeat split; try assumption. now apply list_elem_of_In.
Qed.

(** X12: every key the database-wide aggregator can report, the
    optional ones included, is the name of a metric of the graph
    definition, declared as a counter ([Diff] set); [total_size] is
    declared as a gauge. *)
Theorem GraphDefinition_declares_stat_keys (Title : string -> string) (p : PostgresPlugin)
    (db : DB) :
  (forall m k,
      result_of (fetchStatDatabase db) = (Some m, None) ->
      is_Some (m !! k) -> declares (GraphDefinition Title p) k true) /\
  (forall m k,
      result_of (fetchDatabaseSize db) = (Some m, None) ->
      is_Some (m !! k) -> declares (GraphDefinition Title p) k false).
Proof.
  split; intros m k Hm Hk.
  - rewrite fetchStatDatabase_result in Hm.
    destruct (query_stat_database db query_stat) as [rows|e]; [|discriminate].
    apply result_Some_inv in Hm. subst m. apply statOfTotal_keys in Hk.
    unfold counterKeys, optionalKeys in Hk. cbn [app] in Hk.
    apply elem_of_cons in Hk as [->|Hk]; [now apply (declares_intro _ _ "commits" _ _ _ eq_refl)|].
    apply elem_of_cons in Hk as [->|Hk]; [now apply (declares_intro _ _ "commits" _ _ _ eq_refl)|].
    apply elem_of_cons in Hk as [->|Hk]; [now apply (declares_intro _ _ "blocks" _ _ _ eq_refl)|].
    apply elem_of_cons in Hk as [->|Hk]; [now apply (declares_intro _ _ "blocks" _ _ _ eq_refl)|].
    apply elem_of_cons in Hk as [->|Hk]; [now apply (declares_intro _ _ "rows" _ _ _ eq_refl)|].
    apply elem_of_cons in Hk as [->|Hk]; [now apply (declares_intro _ _ "rows" _ _ _ eq_refl)|].
    apply elem_of_cons in Hk as [->|Hk]; [now apply (declares_intro _ _ "rows" _ _ _ eq_refl)|].
    apply elem_of_cons in Hk as [->|Hk]; [now apply (declares_intro _ _ "rows" _ _ _ eq_refl)|].
    apply elem_of_cons in Hk as [->|Hk]; [now apply (declares_intro _ _ "rows" _ _ _ eq_refl)|].
    apply elem_of_cons in Hk as [->|Hk]; [now apply (declares_intro _ _ "iotime" _ _ _ eq_refl)|].
    apply elem_of_cons in Hk as [->|Hk]; [now apply (declares_intro _ _ "iotime" _ _ _ eq_refl)|].
    apply elem_of_cons in Hk as [->|Hk]; [now apply (declares_intro _ _ "deadlocks" _ _ _ eq_refl)|].
    apply elem_of_cons in Hk as [->|Hk]; [now apply (declares_intro _ _ "tempfile" _ _ _ eq_refl)|].
    now apply elem_of_nil in Hk.
  - rewrite fetchDatabaseSize_result in Hm.
    destruct (query_database_size db query_size) as [rows|e]; [|discriminate].
    apply result_Some_inv in Hm. subst m. apply lookup_insert_is_Some in Hk as [<-|[_ Hk]].
    + now apply (declares_intro _ _ "size" _ _ _ eq_refl).
    + rewrite lookup_empty in Hk. now destruct Hk.
Qed.

(** X13: the seeded state [idle_in_transaction_aborted] is in the
    result of every successful fetch cycle, and no graph declares a metric
    of that name, with either [Diff] flag; the other four seeded states
    are declared as gauges of the connections graph. *)
Theorem seeded_state_without_graph (Title : string -> string) (p : PostgresPlugin) :
  (forall IntSize w p' m,
      result_of (FetchMetrics IntSize w p') = (Some m, None) ->
      is_Some (m !! "idle_in_transaction_aborted")) /\
  (forall diff,
      ~ declares (GraphDefinition Title p) "idle_in_transaction_aborted" diff) /\
  (forall k, k ∈ seededKeys -> k <> "idle_in_transaction_aborted" ->
             declares (GraphDefinition Title p) k false).
Proof.
  split; [|split].
  - intros IntSize w p' m Hm.
    destruct (FetchMetrics_success_inv _ _ _ _ Hm)
      as (db & v & r1 & r2 & r3 & _ & _ & _ & _ & _ & ->).
    rewrite mergeStat_lookup, lookup_insert_ne, lookup_empty by discriminate.
    rewrite mergeStat_lookup.
    assert (Hb : is_Some (fold_left connRowStep r2 connectionsSeed
                            !! "idle_in_transaction_aborted")).
    { apply connRowLoop_keeps. rewrite connectionsSeed_lookup. eauto. }
    destruct Hb as [y ->]. eauto.
  - intros diff (key & g & mt & Hg & Hmt & Hname & _).
    apply elem_of_list_to_map_2 in Hg.
    repeat (apply elem_of_cons in Hg as [Hg|Hg];
            [injection Hg as -> ->; cbn [GMetrics] in Hmt;
             repeat (apply elem_of_cons in Hmt as [->|Hmt]; [discriminate Hname|]);
             now apply elem_of_nil in Hmt|]).
    now apply elem_of_nil in Hg.
  - intros k Hk Hne. unfold seededKeys in Hk.
    repeat (apply elem_of_cons in Hk as [->|Hk];
            [first [congruence | now apply (declares_intro _ _ "connections" _ _ _ eq_refl)]|]).
    now apply elem_of_nil in Hk.
Qed.

(* ===================================================================== *)
(** * Part IV: the memcached plugin                                      *)
(* ===================================================================== *)

Lemma Split_nonempty (s : string) (sep : ascii) : Split s sep <> [].
Proof.
  destruct s as [|c s]; cbn [Split]; [discriminate|].
  destruct (Ascii.eqb c sep); [discriminate|].
  destruct (Split s sep); discriminate.
Qed.

Lemma Split_no_sep (s : string) (sep : ascii) :
  all_bytes (fun c => negb (Ascii.eqb c sep)) s = true -> Split s sep = [s].
Proof.
  induction s as [|c s IH]; [reflexivity|].
  cbn [all_bytes Split]. intros H. apply andb_prop in H as [Hc Hs].
  apply negb_true_iff in Hc. now rewrite Hc, IH.
Qed.

Lemma Split_field (a s : string) (sep : ascii) :
  all_bytes (fun c => negb (Ascii.eqb c sep)) a = true ->
  Split (a ++ String sep s) sep = a :: Split s sep.
Proof.
  induction a as [|c a IH]; intros H.
  - change ("" ++ String sep s) with (String sep s). cbn [Split].
    now rewrite Ascii.eqb_refl.
  - cbn [all_bytes] in H. apply andb_prop in H as [Hc Ha].
    apply negb_true_iff in Hc.
    change (String c a ++ String sep s) with (String c (a ++ String sep s)).
    cbn [Split]. now rewrite Hc, IH.
Qed.

Lemma Split_statLine (kv : string * string) :
  Memcached.no_space kv.1 = true -> Memcached.no_space kv.2 = true ->
  Split (Memcached.statLine kv) " " = ["STAT"; kv.1; kv.2].
Proof.
  intros Hk Hv. unfold Memcached.statLine.
  change ("STAT " ++ kv.1 ++ " " ++ kv.2) with ("STAT" ++ String " " (kv.1 ++ String " " kv.2)).
  rewrite Split_field by reflexivity.
  rewrite Split_field by exact Hk.
  now rewrite Split_no_sep by exact Hv.
Qed.

Lemma short_stat_fields (s : string) :
  Memcached.short_stat s = false ->
  forall res0 res, Split s " " = res0 :: res -> res0 = "STAT" ->
  exists k v rest, res = k :: v :: rest.
Proof.
  unfold Memcached.short_stat. intros H res0 res E ->. rewrite E in H.
  cbn [nth String.eqb Ascii.eqb Bool.eqb andb List.length] in H.
  destruct res as [|k [|v rest]]; try discriminate. eauto.
Qed.

(** A line other than [END] that has its three fields, or is no [STAT]
    line, lets the loop go on. *)
Lemma scanLoop_next (s : string) (lines : list string) (err : option error)
    (stat : Memcached.statMap) :
  s <> "END" -> Memcached.short_stat s = false ->
  exists stat', Memcached.scanLoop (s :: lines) err stat = Memcached.scanLoop lines err stat'.
Proof.
  intros Hs Hshort. cbn [Memcached.scanLoop].
  destruct (String.eqb_spec s "END") as [|_]; [contradiction|].
  pose proof (Split_nonempty s " ") as Hne.
  destruct (Split s " ") as [|res0 res] eqn:E; [contradiction|].
  cbn [lookup list_lookup].
  destruct (String.eqb_spec res0 "STAT") as [H0|_]; [|eauto].
  destruct (short_stat_fields s Hshort res0 res E H0) as (k & v & rest & ->).
  cbn [lookup list_lookup]. eauto.
Qed.

Lemma short_stat_panics (s : string) (lines : list string) (err : option error)
    (stat : Memcached.statMap) :
  Memcached.short_stat s = true ->
  s <> "END" /\
  Memcached.scanLoop (s :: lines) err stat =
    Memcached.Panics (List.length (Split s " ")) (List.length (Split s " ")) /\
  (List.length (Split s " ") = 1%nat \/ List.length (Split s " ") = 2%nat).
Proof.
  intros Hshort.
  assert (Hs : s <> "END") by (intros ->; discriminate Hshort).
  split; [exact Hs|].
  cbn [Memcached.scanLoop]. destruct (String.eqb_spec s "END") as [|_]; [contradiction|].
  unfold Memcached.short_stat in Hshort. cbv zeta in Hshort.
  destruct (Split s " ") as [|res0 res]; [discriminate|].
  cbn [nth] in Hshort. apply andb_prop in Hshort as [H0 Hlen].
  cbn [lookup list_lookup]. rewrite H0.
  destruct res as [|k [|v rest]]; [split; [reflexivity|now left]
                                  |split; [reflexivity|now right]|discriminate].
Qed.

(** X14: the answer is read up to the first [END] line only: the lines
    after it are not looked at, and neither is the error the scanner may
    have met after it. *)
Theorem memcached_parseStats_stops_at_END (pre post : list string) (err : option error) :
  "END" ∉ pre ->
  Memcached.parseStats {| Memcached.tokens := pre ++ "END" :: post;
                          Memcached.scan_err := err |} =
  Memcached.parseStats {| Memcached.tokens := pre ++ ["END"];
                          Memcached.scan_err := None |}.
Proof.
  unfold Memcached.parseStats. cbn [Memcached.tokens Memcached.scan_err].
  generalize (∅ : Memcached.statMap).
  induction pre as [|s pre IH]; intros stat Hno; [reflexivity|].
  assert (Hs : s <> "END") by (intros ->; apply Hno; left).
  assert (Hpre : "END" ∉ pre) by (intros H; apply Hno; now right).
  cbn [app Memcached.scanLoop].
  destruct (String.eqb_spec s "END") as [|_]; [contradiction|].
  destruct (Split s " " !! 0%nat) as [res0|]; [|reflexivity].
  destruct (String.eqb res0 "STAT"); [|now apply IH].
  destruct (Split s " " !! 1%nat) as [res1|]; [|reflexivity].
  destruct (Split s " " !! 2%nat) as [res2|]; [|reflexivity].
  now apply IH.
Qed.

Lemma memcached_parseStats_stops_at_END_witness :
  Memcached.parseStats Memcached.complete_conn =
  Memcached.parseStats {| Memcached.tokens := ["STAT pid 4711"; "STAT total_items 12";
                                               "STAT pid 4712"; "END"];
                          Memcached.scan_err := None |}.
Proof.
  apply (memcached_parseStats_stops_at_END
           ["STAT pid 4711"; "STAT total_items 12"; "STAT pid 4712"] ["STAT"]).
  intros H. repeat (apply elem_of_cons in H as [H|H]; [discriminate H|]).
  now apply elem_of_nil in H.
Defined.


(** X16: when the answer ends without an [END] line (and no line makes
    the loop panic), the statistics read so far are given up: after a
    clean end of input [parseStats] returns neither a map nor an error;
    after a read error it returns that error, with a map. *)
Theorem memcached_parseStats_without_END (lines : list string) :
  "END" ∉ lines ->
  Forall (fun s => Memcached.short_stat s = false) lines ->
  Memcached.parseStats {| Memcached.tokens := lines; Memcached.scan_err := None |} =
    Memcached.Returns None None /\
  forall e, exists stat,
    Memcached.parseStats {| Memcached.tokens := lines; Memcached.scan_err := Some e |} =
      Memcached.Returns (Some stat) (Some e).
Proof.
  unfold Memcached.parseStats. cbn [Memcached.tokens Memcached.scan_err].
  generalize (∅ : Memcached.statMap).
  induction lines as [|s lines IH]; intros stat Hno Hwf.
  - split; [reflexivity|]. intros e. now exists stat.
  - assert (Hs : s <> "END") by (intros ->; apply Hno; left).
    assert (Hrest : "END" ∉ lines) by (intros H; apply Hno; now right).
    apply Forall_cons in Hwf as [Hshort Hwf].
    split.
    + destruct (scanLoop_next s lines None stat Hs Hshort) as [stat' ->].
      now apply IH.
    + intros e. destruct (scanLoop_next s lines (Some e) stat Hs Hshort) as [stat' ->].
      now apply IH.
Qed.

Lemma memcached_parseStats_without_END_witness :
  Memcached.parseStats {| Memcached.tokens := ["STAT pid 4711"; "STAT total_items 12"];
                          Memcached.scan_err := None |} = Memcached.Returns None None /\
  exists stat,
    Memcached.parseStats Memcached.truncated_conn =
      Memcached.Returns (Some stat) (Some (ErrorString "read: connection reset by peer")).
Proof.
  destruct (memcached_parseStats_without_END ["STAT pid 4711"; "STAT total_items 12"])
    as [Hnil Herr].
  - intros H. repeat (apply elem_of_cons in H as [H|H]; [discriminate H|]).
    now apply elem_of_nil in H.
  - repeat constructor.
  - split; [exact Hnil | apply Herr].
Defined.

Lemma Returns_inv (a b : option Memcached.statMap) (e e' : option error) :
  Memcached.Returns a e = Memcached.Returns b e' -> a = b /\ e = e'.
Proof. intros H. now injection H. Qed.

Lemma scanLoop_END (lines : list string) (err : option error) (stat : Memcached.statMap) :
  Memcached.scanLoop ("END" :: lines) err stat =
  Memcached.Returns (Some (<["new_items" := Memcached.index stat "total_items"]> stat)) None.
Proof. reflexivity. Qed.

Lemma Some_stat_inv (a b : Memcached.statMap) : Some a = Some b -> a = b.
Proof. intros H. now injection H. Qed.

Lemma scanLoop_statLines (kvs : list (string * string)) (rest : list string)
    (err : option error) :
  Forall (fun kv => Memcached.no_space kv.1 = true /\ Memcached.no_space kv.2 = true) kvs ->
  forall stat,
    Memcached.scanLoop (map Memcached.statLine kvs ++ rest) err stat =
    Memcached.scanLoop rest err
      (fold_left (fun m kv => <[kv.1 := Memcached.Str kv.2]> m) kvs stat).
Proof.
  induction 1 as [|kv kvs [Hk Hv] _ IH]; intros stat; [reflexivity|].
  cbn [map app fold_left Memcached.scanLoop].
  rewrite (Split_statLine kv Hk Hv). cbn [lookup list_lookup].
  change (String.eqb (Memcached.statLine kv) "END") with false.
  change (String.eqb "STAT" "STAT") with true. cbv iota. apply IH.
Qed.

Lemma fold_insert_lookup (kvs : list (string * string)) :
  forall (stat : Memcached.statMap) (k : string),
    fold_left (fun m kv => <[kv.1 := Memcached.Str kv.2]> m) kvs stat !! k =
    match (list_to_map (reverse kvs) : gmap string string) !! k with
    | Some v => Some (Memcached.Str v)
    | None => stat !! k
    end.
Proof.
  induction kvs as [|kv kvs IH]; intros stat k; [reflexivity|].
  cbn [fold_left]. rewrite IH, reverse_cons, list_to_map_app, lookup_union.
  destruct (list_to_map (reverse kvs) !! k) as [v|]; [now rewrite union_Some_l|].
  rewrite (left_id None _). cbn [list_to_map foldr].
  destruct (decide (kv.1 = k)) as [<-|Hne].
  - now rewrite !lookup_insert_eq.
  - now rewrite !lookup_insert_ne, lookup_empty by assumption.
Qed.

(** X17: round trip.  When memcached writes its statistics as lines
    [STAT name value] (names and values without a space) and then [END],
    [parseStats] returns every name with its value as a string, the last
    line of a name winning, and nothing else but [new_items], which gets
    the value of [total_items], or [nil] when there is none. *)
Theorem memcached_parseStats_round_trip (kvs : list (string * string))
    (post : list string) (err : option error) :
  Forall (fun kv => Memcached.no_space kv.1 = true /\ Memcached.no_space kv.2 = true) kvs ->
  exists m : Memcached.statMap,
    Memcached.parseStats {| Memcached.tokens := map Memcached.statLine kvs ++ "END" :: post;
                            Memcached.scan_err := err |} =
      Memcached.Returns (Some m) None /\
    (forall k, k <> "new_items" ->
       m !! k = Memcached.Str <$> (list_to_map (reverse kvs) : gmap string string) !! k) /\
    m !! "new_items" =
      Some (default Memcached.Nil
              (Memcached.Str <$>
                 (list_to_map (reverse kvs) : gmap string string) !! "total_items")).
Proof.
  intros Hkvs. unfold Memcached.parseStats. cbn [Memcached.tokens Memcached.scan_err].
  rewrite scanLoop_statLines by exact Hkvs.
  eexists. split; [reflexivity|]. split.
  - intros k Hk. rewrite lookup_insert_ne by congruence.
    rewrite fold_insert_lookup, lookup_empty.
    now destruct (list_to_map (reverse kvs) !! k).
  - rewrite lookup_insert_eq. unfold Memcached.index.
    rewrite fold_insert_lookup, lookup_empty.
    now destruct (list_to_map (reverse kvs) !! "total_items").
Qed.

Lemma memcached_parseStats_round_trip_witness :
  exists m : Memcached.statMap,
    Memcached.parseStats Memcached.complete_conn = Memcached.Returns (Some m) None /\
    m !! "pid" = Some (Memcached.Str "4712") /\
    m !! "new_items" = Some (Memcached.Str "12").
Proof.
  destruct (memcached_parseStats_round_trip
              [("pid", "4711"); ("total_items", "12"); ("pid", "4712")] ["STAT"]
              (Some (ErrorString "read: connection reset by peer")))
    as (m & Hm & Hk & Hnew).
  - repeat constructor.
  - exists m. split; [exact Hm|]. split; [|exact Hnew].
    apply (Hk "pid"). discriminate.
Defined.

(** X18: a map is returned without an error only when an [END] line
    was read, and it then has the key [new_items], whose value is that of
    [total_items], or [nil] when the map has no [total_items]; a value the
    server sent for [new_items] is overwritten. *)
Theorem memcached_parseStats_new_items (conn : Memcached.Scanner) (m : Memcached.statMap) :
  Memcached.parseStats conn = Memcached.Returns (Some m) None ->
  "END" ∈ Memcached.tokens conn /\
  m !! "new_items" = Some (Memcached.index m "total_items").
Proof.
  unfold Memcached.parseStats. destruct conn as [lines err].
  cbn [Memcached.tokens Memcached.scan_err].
  generalize (∅ : Memcached.statMap).
  induction lines as [|s lines IH]; intros stat H.
  - cbn in H. destruct err; apply Returns_inv in H as [H1 H2]; discriminate.
  - destruct (String.eqb_spec s "END") as [->|Hs].
    + rewrite scanLoop_END in H. apply Returns_inv in H as [H _].
      apply Some_stat_inv in H. subst m. split; [left|].
      rewrite lookup_insert_eq. unfold Memcached.index.
      now rewrite lookup_insert_ne by discriminate.
    + destruct (Memcached.short_stat s) eqn:Hshort.
      * destruct (short_stat_panics s lines err stat Hshort) as (_ & Hp & _).
        rewrite Hp in H. discriminate.
      * destruct (scanLoop_next s lines err stat Hs Hshort) as [stat' Hnext].
        rewrite Hnext in H. destruct (IH _ H) as [Hin Hnew].
        split; [now right | exact Hnew].
Qed.

Lemma memcached_parseStats_new_items_witness :
  "END" ∈ ["total_items"; "END"] /\
  (<["new_items" := Memcached.Nil]> ∅ : Memcached.statMap) !! "new_items" =
    Some (Memcached.index (<["new_items" := Memcached.Nil]> ∅) "total_items").
Proof.
  apply (memcached_parseStats_new_items
           {| Memcached.tokens := ["total_items"; "END"]; Memcached.scan_err := None |}).
  reflexivity.
Defined.


(* ===================================================================== *)
(** * Part V: the varnish plugin                                         *)
(* ===================================================================== *)

Lemma lineStep_key (ParseFloat : string -> Z -> float * option error)
    (stat : gmap string float) (err : option error) (line key : string) :
  Varnish.lineKey line = Some key ->
  Varnish.lineStep ParseFloat (stat, err) line =
  (<[key := (ParseFloat (Varnish.lineNumber line) 64).1]> stat,
   (ParseFloat (Varnish.lineNumber line) 64).2).
Proof.
  unfold Varnish.lineKey, Varnish.lineStep, Varnish.lineNumber.
  destruct (Varnish.FindStringSubmatchAtStart Varnish.lineexp line) as [|w ws]; [discriminate|].
  cbv zeta.
  destruct (String.eqb (nth 1 (w :: ws) "") "client_req"
            || String.eqb (nth 1 (w :: ws) "") "MAIN.client_req").
  - intros [= <-]. now destruct (ParseFloat (nth 2 (w :: ws) "") 64).
  - destruct (String.eqb (nth 1 (w :: ws) "") "cache_hit"
              || String.eqb (nth 1 (w :: ws) "") "MAIN.cache_hit"); [|discriminate].
    intros [= <-]. now destruct (ParseFloat (nth 2 (w :: ws) "") 64).
Qed.

Lemma lineStep_none (ParseFloat : string -> Z -> float * option error)
    (acc : gmap string float * option error) (line : string) :
  Varnish.lineKey line = None -> Varnish.lineStep ParseFloat acc line = acc.
Proof.
  unfold Varnish.lineKey, Varnish.lineStep. destruct acc as [stat err].
  destruct (Varnish.FindStringSubmatchAtStart Varnish.lineexp line) as [|w ws]; [reflexivity|].
  cbv zeta.
  destruct (String.eqb (nth 1 (w :: ws) "") "client_req"
            || String.eqb (nth 1 (w :: ws) "") "MAIN.client_req"); [discriminate|].
  destruct (String.eqb (nth 1 (w :: ws) "") "cache_hit"
            || String.eqb (nth 1 (w :: ws) "") "MAIN.cache_hit"); [discriminate|].
  reflexivity.
Qed.

Lemma lineKey_cases (line : string) :
  Varnish.lineKey line = None \/ Varnish.lineKey line = Some "requests" \/
  Varnish.lineKey line = Some "cache_hits".
Proof.
  unfold Varnish.lineKey.
  destruct (Varnish.FindStringSubmatchAtStart Varnish.lineexp line) as [|w ws]; [now left|].
  cbv zeta.
  destruct (String.eqb (nth 1 (w :: ws) "") "client_req"
            || String.eqb (nth 1 (w :: ws) "") "MAIN.client_req"); [now right; left|].
  destruct (String.eqb (nth 1 (w :: ws) "") "cache_hit"
            || String.eqb (nth 1 (w :: ws) "") "MAIN.cache_hit"); [now right; right|now left].
Qed.

(** The keys after the loop: those before it and those its lines set. *)
Lemma lineLoop_keys (ParseFloat : string -> Z -> float * option error) (lines : list string) :
  forall (acc : gmap string float * option error) (k : string),
    is_Some ((fold_left (Varnish.lineStep ParseFloat) lines acc).1 !! k) <->
    is_Some (acc.1 !! k) \/ exists line, line ∈ lines /\ Varnish.lineKey line = Some k.
Proof.
  induction lines as [|line lines IH]; intros [stat err] k; cbn [fold_left].
  - split; [now left|]. intros [H|(line & Hin & _)]; [exact H|now apply elem_of_nil in Hin].
  - rewrite IH. destruct (Varnish.lineKey line) as [key|] eqn:Hkey.
    + rewrite (lineStep_key _ _ _ _ _ Hkey). cbn [fst]. rewrite lookup_insert_is_Some. split.
      * intros [[<-|[_ H]]|(l & Hin & Hl)].
        -- right. exists line. split; [left|exact Hkey].
        -- now left.
        -- right. exists l. split; [now right|exact Hl].
      * intros [H|(l & Hin & Hl)].
        -- left. destruct (decide (key = k)); auto.
        -- apply elem_of_cons in Hin as [->|Hin].
           ++ left. left. congruence.
           ++ right. now exists l.
    + rewrite (lineStep_none _ _ _ Hkey). cbn [fst]. split.
      * intros [H|(l & Hin & Hl)]; [now left|]. right. exists l. split; [now right|exact Hl].
      * intros [H|(l & Hin & Hl)]; [now left|].
        apply elem_of_cons in Hin as [->|Hin]; [congruence|]. right. now exists l.
Qed.

Lemma lineLoop_unrecognised (ParseFloat : string -> Z -> float * option error)
    (lines : list string) (acc : gmap string float * option error) :
  Forall (fun l => Varnish.lineKey l = None) lines ->
  fold_left (Varnish.lineStep ParseFloat) lines acc = acc.
Proof.
  intros H. revert acc. induction H as [|l lines Hl _ IH]; intros acc; [reflexivity|].
  cbn [fold_left]. now rewrite lineStep_none.
Qed.

Lemma lineLoop_other_keys (ParseFloat : string -> Z -> float * option error)
    (lines : list string) (key : string) :
  Forall (fun l => Varnish.lineKey l <> Some key) lines ->
  forall acc, (fold_left (Varnish.lineStep ParseFloat) lines acc).1 !! key = acc.1 !! key.
Proof.
  induction 1 as [|l lines Hl _ IH]; intros [stat err]; [reflexivity|].
  cbn [fold_left]. rewrite IH. destruct (Varnish.lineKey l) as [k|] eqn:Hk.
  - rewrite (lineStep_key _ _ _ _ _ Hk). cbn [fst]. apply lookup_insert_ne. congruence.
  - now rewrite lineStep_none.
Qed.

Lemma varnish_result (ParseFloat : string -> Z -> float * option error)
    (os : Varnish.OS) (m : Varnish.VarnishPlugin) (out : string) :
  Varnish.exec_Output os (Varnish.VarnishStatPath m) ["-1"] = inl out ->
  Varnish.FetchMetrics ParseFloat os m =
  (Some (fold_left (Varnish.lineStep ParseFloat) (Split out LF) (∅, None)).1,
   (fold_left (Varnish.lineStep ParseFloat) (Split out LF) (∅, None)).2).
Proof.
  intros H. unfold Varnish.FetchMetrics. rewrite H.
  now destruct (fold_left _ _ _).
Qed.

(** X20: when the command fails [FetchMetrics] returns its error and
    no map.  Otherwise it returns a map, whose keys are exactly the keys
    that some line of the output sets; they are among [requests] and
    [cache_hits], each a counter of the graph definition. *)
Theorem varnish_FetchMetrics_keys (ParseFloat : string -> Z -> float * option error)
    (os : Varnish.OS) (m : Varnish.VarnishPlugin) :
  match Varnish.exec_Output os (Varnish.VarnishStatPath m) ["-1"] with
  | inr err => Varnish.FetchMetrics ParseFloat os m = (None, Some err)
  | inl out =>
      exists stat e,
        Varnish.FetchMetrics ParseFloat os m = (Some stat, e) /\
        (forall k, is_Some (stat !! k) <->
                   exists line, line ∈ Split out LF /\ Varnish.lineKey line = Some k) /\
        (forall k, is_Some (stat !! k) ->
                   (k = "requests" \/ k = "cache_hits") /\
                   declares (Varnish.GraphDefinition m) k true)
  end.
Proof.
  destruct (Varnish.exec_Output os (Varnish.VarnishStatPath m) ["-1"]) as [out|err] eqn:E.
  - rewrite (varnish_result _ _ _ _ E). eexists _, _. split; [reflexivity|].
    assert (Hkeys : forall k,
               is_Some ((fold_left (Varnish.lineStep ParseFloat) (Split out LF) (∅, None)).1
                          !! k) <->
               exists line, line ∈ Split out LF /\ Varnish.lineKey line = Some k).
    { intros k. rewrite lineLoop_keys. cbn [fst]. rewrite lookup_empty. split.
      - intros [[x Hx]|H]; [discriminate|exact H].
      - intros H. now right. }
    split; [exact Hkeys|].
    intros k Hk. apply Hkeys in Hk as (line & _ & Hline).
    assert (Hdecl : forall name, name = "requests" \/ name = "cache_hits" ->
                                 declares (Varnish.GraphDefinition m) name true).
    { intros name [-> | ->]; eexists "varnish.requests", _, _; (split; [reflexivity|]).
      - split; [left|split; reflexivity].
      - split; [right; left|split; reflexivity]. }
    destruct (lineKey_cases line) as [H|[H|H]]; rewrite H in Hline; [discriminate| |];
      apply (inj Some) in Hline; subst k; split; auto.
  - unfold Varnish.FetchMetrics. now rewrite E.
Qed.

(** X21: a later line overwrites what an earlier one set, the error
    included.  The value of a key is the number of the last line that sets
    it, as [ParseFloat] converts it; and the error returned is that of the
    last line that sets any key, so that the error of an earlier line is
    lost, and an error comes together with a map. *)
Theorem varnish_last_line_decides (ParseFloat : string -> Z -> float * option error)
    (os : Varnish.OS) (m : Varnish.VarnishPlugin)
    (out : string) (pre post : list string) (line key : string) :
  Varnish.exec_Output os (Varnish.VarnishStatPath m) ["-1"] = inl out ->
  Split out LF = (pre ++ line :: post)%list ->
  Varnish.lineKey line = Some key ->
  Forall (fun l => Varnish.lineKey l <> Some key) post ->
  exists stat e,
    Varnish.FetchMetrics ParseFloat os m = (Some stat, e) /\
    stat !! key = Some (ParseFloat (Varnish.lineNumber line) 64).1 /\
    (Forall (fun l => Varnish.lineKey l = None) post ->
     e = (ParseFloat (Varnish.lineNumber line) 64).2).
Proof.
  intros Hout Hsplit Hkey Hpost.
  rewrite (varnish_result _ _ _ _ Hout), Hsplit, fold_left_app.
  cbn [fold_left].
  destruct (fold_left (Varnish.lineStep ParseFloat) pre (∅, None)) as [stat0 err0].
  rewrite (lineStep_key _ _ _ _ _ Hkey).
  eexists _, _. split; [reflexivity|]. split.
  - rewrite (lineLoop_other_keys _ _ _ Hpost). cbn [fst]. apply lookup_insert_eq.
  - intros Hnone. now rewrite lineLoop_unrecognised.
Qed.

Lemma varnish_last_line_decides_witness :
  exists stat e,
    Varnish.FetchMetrics Varnish.example_ParseFloat Varnish.example_os Varnish.example_plugin =
      (Some stat, e) /\
    stat !! "requests" = Some 1234%float /\
    e = None.
Proof.
  destruct (varnish_last_line_decides Varnish.example_ParseFloat Varnish.example_os
              Varnish.example_plugin Varnish.example_output
              ["MAIN.client_req 99999999999 0.5 Good client requests";
               "MAIN.cache_hit      77         0.10 Cache hits"]
              [" MAIN.cache_hit 5 indented"; "MAIN.cache_miss 12 0.1 Cache misses"; ""]
              "MAIN.client_req   1234         0.50 Good client requests" "requests")
    as (stat & e & Hm & Hv & He).
  - reflexivity.
  - reflexivity.
  - reflexivity.
  - repeat constructor; vm_compute; discriminate.
  - exists stat, e. split; [exact Hm|]. split; [exact Hv|].
    apply He. repeat constructor.
Defined.

(** *** The line pattern on the lines [varnishstat -1] prints *)

Lemma all_bytes_spaces (n : nat) :
  all_bytes (Ascii.eqb " ") (Varnish.spaces n) = true.
Proof. induction n as [|n IH]; [reflexivity|exact IH]. Qed.

Lemma length_spaces (n : nat) : String.length (Varnish.spaces n) = n.
Proof. induction n as [|n IH]; [reflexivity|]. cbn. f_equal. exact IH. Qed.

Lemma starts_with_number (p : ascii -> bool) (digits rest : string) :
  is_number digits -> (forall c, is_digit c = true -> p c = false) ->
  starts_with p (digits ++ rest) = false.
Proof.
  intros [Hne Hd] Hp. destruct digits as [|c d]; [contradiction|].
  cbn [all_bytes] in Hd. apply andb_prop in Hd as [Hc _].
  cbn. now apply Hp.
Qed.

Lemma digit_not_space (c : ascii) : is_digit c = true -> Ascii.eqb " " c = false.
Proof.
  intros H. destruct (Ascii.eqb_spec " " c) as [<-|]; [discriminate H|reflexivity].
Qed.

Lemma lineexp_line (name digits rest : string) (n : nat) :
  name <> "" -> all_bytes Varnish.notSpace name = true ->
  is_number digits -> starts_with is_digit rest = false ->
  Varnish.FindStringSubmatchAtStart Varnish.lineexp
    (name ++ Varnish.spaces (S n) ++ digits ++ rest) =
  [name ++ Varnish.spaces (S n) ++ digits; name; digits].
Proof.
  intros Hne Hname Hdigits Hrest.
  set (ln := String.length name). set (ld := String.length digits).
  assert (Hm : matchAt Varnish.lineexp (name ++ Varnish.spaces (S n) ++ digits ++ rest) 0 =
               Some [Some (0, ln + S n + ld); Some (0, ln);
                     Some (ln + S n, ln + S n + ld)]%nat).
  { unfold matchAt.
    change (replicate (S (NumSubexp Varnish.lineexp)) None)
      with ([None; None; None] : captures).
    unfold Varnish.lineexp.
    rewrite exec_Cat, exec_Group.
    apply exec_Plus_class_run; [assumption|assumption|reflexivity|].
    rewrite exec_Cat, exec_Plus.
    change (exec (Lit " ")) with (exec (Class (Ascii.eqb " "))).
    apply plusLoop_class_run;
      [discriminate | apply all_bytes_spaces
      | apply starts_with_number; [assumption|apply digit_not_space]
      | rewrite !length_append; lia |].
    rewrite exec_Group.
    destruct Hdigits as [Hdne Hd].
    apply exec_Plus_class_run; [assumption|assumption|assumption|].
    rewrite length_spaces. fold ln ld. cbn [Nat.add].
    reflexivity. }
  unfold Varnish.FindStringSubmatchAtStart. rewrite Hm. cbn [map slice].
  replace (ln + S n + ld - 0)%nat
    with (String.length (name ++ Varnish.spaces (S n) ++ digits))
    by (rewrite !length_append, length_spaces; lia).
  replace (ln - 0)%nat with (String.length name) by (unfold ln; lia).
  replace (ln + S n + ld - (ln + S n))%nat with (String.length digits) by (unfold ld; lia).
  replace (ln + S n)%nat with (String.length (name ++ Varnish.spaces (S n)))
    by (rewrite length_append, length_spaces; reflexivity).
  f_equal; [|f_equal; [|f_equal]].
  - etransitivity;
      [|apply (substring_prefix (name ++ Varnish.spaces (S n) ++ digits) rest)].
    f_equal. now rewrite !append_assoc.
  - apply (substring_prefix name).
  - etransitivity;
      [|apply (substring_middle (name ++ Varnish.spaces (S n)) digits rest)].
    f_equal. now rewrite !append_assoc.
Qed.

(** X22: a line of [varnishstat -1], that is a name, spaces, a number
    and more text, sets [requests] when the name is [client_req] or
    [MAIN.client_req], [cache_hits] when it is [cache_hit] or
    [MAIN.cache_hit], and nothing otherwise; the digits of the number are
    what [ParseFloat] is given.  A line that begins with a space sets
    nothing, whatever follows, as the pattern is anchored. *)
Theorem varnish_line_format (ParseFloat : string -> Z -> float * option error)
    (name digits rest : string) (n : nat)
    (stat : gmap string float) (err : option error) :
  name <> "" -> all_bytes Varnish.notSpace name = true ->
  is_number digits -> starts_with is_digit rest = false ->
  Varnish.lineStep ParseFloat (stat, err) (name ++ Varnish.spaces (S n) ++ digits ++ rest) =
    (if decide (name ∈ ["client_req"; "MAIN.client_req"])
     then (<["requests" := (ParseFloat digits 64).1]> stat, (ParseFloat digits 64).2)
     else if decide (name ∈ ["cache_hit"; "MAIN.cache_hit"])
     then (<["cache_hits" := (ParseFloat digits 64).1]> stat, (ParseFloat digits 64).2)
     else (stat, err)) /\
  (forall text, Varnish.lineStep ParseFloat (stat, err) (String " " text) = (stat, err)).
Proof.
  intros Hne Hname Hdigits Hrest. split; [|reflexivity].
  unfold Varnish.lineStep. rewrite lineexp_line by assumption.
  cbn [nth]. destruct (ParseFloat digits 64) as [f e]. cbn [fst snd].
  assert (Hin : forall a b : string,
             String.eqb name a || String.eqb name b = bool_decide (name ∈ [a; b])).
  { intros a b. symmetry. destruct (String.eqb_spec name a) as [->|Ha].
    - apply bool_decide_eq_true. left.
    - destruct (String.eqb_spec name b) as [->|Hb].
      + apply bool_decide_eq_true. right. left.
      + apply bool_decide_eq_false. intros H.
        apply elem_of_cons in H as [H|H]; [contradiction|].
        apply elem_of_cons in H as [H|H]; [contradiction|].
        now apply elem_of_nil in H. }
  rewrite !Hin.
  destruct (decide (name ∈ ["client_req"; "MAIN.client_req"])) as [H1|H1].
  { now rewrite bool_decide_eq_true_2 by exact H1. }
  rewrite (bool_decide_eq_false_2 _ H1).
  destruct (decide (name ∈ ["cache_hit"; "MAIN.cache_hit"])) as [H2|H2].
  { now rewrite bool_decide_eq_true_2 by exact H2. }
  now rewrite (bool_decide_eq_false_2 _ H2).
Qed.

Lemma varnish_line_format_witness :
  Varnish.lineStep Varnish.example_ParseFloat (∅, None)
    "MAIN.cache_hit      77         0.10 Cache hits" =
  (<["cache_hits" := 77%float]> ∅, None).
Proof.
  destruct (varnish_line_format Varnish.example_ParseFloat
              "MAIN.cache_hit" "77" "         0.10 Cache hits" 5 ∅ None) as [H _];
    [discriminate | reflexivity | split; [discriminate|reflexivity] | reflexivity |].
  exact H.
Defined.
